(** * Tile-region negotiation at a fan-out node

    A shallow embedding of [SplitStage]
    (src/libcamera/pipeline/raspberrypi/pisp/backend/tiling/split_stage.cpp)
    and the properties of its three negotiation passes.

    The node is a C++ object with four members ([upstream_], [downstream_],
    [input_interval_], [count_]); its methods mutate these members and make
    virtual calls on neighbouring [Stage] objects.  The members become a
    record, the methods become computations in a small state-and-abort
    monad, and every call that leaves the node is appended to a call log
    and answered by an arbitrary implementation of the [Stage] interface. *)

From Stdlib Require Import ZArith List Bool Lia Permutation PeanoNat.
From Stdlib Require String.
Import String.StringSyntax.
Import ListNotations.
Open Scope Z_scope.

(** ** Handles, axes *)

(** A [Stage *]: the graph owns the stages, the node only holds handles.
    Two equal handles denote the same object. *)
Definition StageId := nat.
Bind Scope nat_scope with StageId.

(** Modelled from the spec: the enumeration [Dir] is declared in a header
    that is absent; the spec calls it the scan axis, "one of the
    (typically two) independent scan directions".  The node only passes it
    on. *)
Inductive Dir : Type := DirX | DirY.

(** ** Interval *)

(** Modelled from the spec: the class [Interval] is declared in a header
    that is absent.  The spec gives it as [{start, end}], the half-open
    range [[start, end)]; the source reads the start through the member
    [offset] and the end through [End()].  The C++ [int]s are integers
    here: the node copies them, compares them and takes minima of them,
    and does no arithmetic that could wrap. *)
Record Interval : Type := mkInterval { offset : Z; end_ : Z }.

(** Modelled from the spec: the two-argument constructor, used by the
    source only as [Interval(0, 0)] ("reset to (0,0)"). *)
Definition Interval2 (a b : Z) : Interval := mkInterval a b.

(** Modelled from the spec: the one-argument constructor, "a single point
    start==end==offset". *)
Definition Interval1 (o : Z) : Interval := mkInterval o o.

(** Modelled from the spec: [operator|=(int)] is the spec's [unionLeft],
    which "sets start = min(start, offset)" and "widens the interval
    leftward only". *)
Definition Interval_or (i : Interval) (o : Z) : Interval :=
  mkInterval (Z.min (offset i) o) (end_ i).

(** Modelled from the spec: [End()] reads the end of the range. *)
Definition End_ (i : Interval) : Z := end_ i.

(** Modelled from the spec: [SetEnd(e)], "set the node's own interval end
    to inputEnd"; the start is kept. *)
Definition SetEnd (i : Interval) (e : Z) : Interval := mkInterval (offset i) e.

(** Modelled from the spec: [operator>] is the spec's [extends], the pure
    predicate [start <= other.start && end >= other.end]. *)
Definition Interval_gt (i other : Interval) : bool :=
  (offset i <=? offset other) && (end_ other <=? end_ i).

(** ** The node and what surrounds it *)

(** The data members of [SplitStage].  [count_] is only ever incremented by
    one, compared and zeroed; it is a natural number here (lemma
    [PushStartUp_count_below] bounds it by the number of branches). *)
Record SplitStage : Type := mkSplitStage {
  upstream_ : StageId;
  downstream_ : list StageId;
  input_interval_ : Interval;
  count_ : nat
}.

(** The calls a [SplitStage] makes on other stages. *)
Inductive Call : Type :=
| CallSetDownstream (target : StageId) (stage : StageId)
| CallPushStartUp (target : StageId) (output_start : Z) (dir : Dir)
| CallPushEndDown (target : StageId) (input_end : Z) (dir : Dir)
| CallPushCropDown (target : StageId) (interval : Interval) (dir : Dir).

(** The abstract [Stage] interface as the node uses it.  [W] is the state
    of all the other stages of the graph; a virtual call on the stage with
    handle [d] transforms [W] and, for [PushEndDown], returns an [int].
    The neighbours are arbitrary, but they return, and they do not call
    back into the node that is calling them (pushes travel one way
    through the graph). *)
Class StageWorld (W : Type) : Type := {
  ext_SetDownstream : StageId -> StageId -> W -> W;
  ext_PushStartUp : StageId -> Z -> Dir -> W -> W;
  ext_PushEndDown : StageId -> Z -> Dir -> W -> Z * W;
  ext_PushCropDown : StageId -> Interval -> Dir -> W -> W
}.

(** The node, the rest of the graph, and the log of calls made so far
    (oldest first). *)
Record State (W : Type) : Type := mkState {
  self : SplitStage;
  world : W;
  calls : list Call
}.
Arguments mkState {W} _ _ _.
Arguments self {W} _.
Arguments world {W} _.
Arguments calls {W} _.

(** A method either returns or stops the process on a failed [assert]. *)
Inductive Outcome (A : Type) : Type :=
| Returned (a : A)
| AssertionFailed.
Arguments Returned {A} _.
Arguments AssertionFailed {A}.

Definition M (W A : Type) : Type := State W -> Outcome (A * State W).

Definition ret {W A} (a : A) : M W A := fun st => Returned (a, st).

Definition bind {W A B} (m : M W A) (k : A -> M W B) : M W B :=
  fun st => match m st with
            | Returned (a, st') => k a st'
            | AssertionFailed => AssertionFailed
            end.

Declare Scope stage_scope.
Delimit Scope stage_scope with stage.
Notation "x <- m ;; k" := (bind m (fun x => k))
  (at level 100, m at next level, right associativity) : stage_scope.
Notation "m ;; k" := (bind m (fun _ => k))
  (at level 100, right associativity) : stage_scope.
Open Scope stage_scope.

(** [for (auto d : l) body(d);] *)
Fixpoint for_each {W A} (l : list A) (body : A -> M W unit) : M W unit :=
  match l with
  | [] => ret tt
  | a :: l' => body a ;; for_each l' body
  end.

(** [assert(b)] *)
Definition assert_ {W} (b : bool) : M W unit :=
  fun st => if b then Returned (tt, st) else AssertionFailed.

(** Member reads and writes. *)
Definition get_upstream {W} : M W StageId :=
  fun st => Returned (upstream_ (self st), st).

Definition get_downstream {W} : M W (list StageId) :=
  fun st => Returned (downstream_ (self st), st).

Definition get_input_interval {W} : M W Interval :=
  fun st => Returned (input_interval_ (self st), st).

Definition get_count {W} : M W nat :=
  fun st => Returned (count_ (self st), st).

Definition with_downstream (s : SplitStage) (ds : list StageId) : SplitStage :=
  mkSplitStage (upstream_ s) ds (input_interval_ s) (count_ s).

Definition with_input_interval (s : SplitStage) (i : Interval) : SplitStage :=
  mkSplitStage (upstream_ s) (downstream_ s) i (count_ s).

Definition with_count (s : SplitStage) (c : nat) : SplitStage :=
  mkSplitStage (upstream_ s) (downstream_ s) (input_interval_ s) c.

Definition set_downstream {W} (ds : list StageId) : M W unit :=
  fun st => Returned (tt, mkState (with_downstream (self st) ds) (world st) (calls st)).

Definition set_input_interval {W} (i : Interval) : M W unit :=
  fun st => Returned (tt, mkState (with_input_interval (self st) i) (world st) (calls st)).

Definition set_count {W} (c : nat) : M W unit :=
  fun st => Returned (tt, mkState (with_count (self st) c) (world st) (calls st)).

Section Methods.

Context {W : Type} {SW : StageWorld W}.

(** Virtual calls on neighbours: logged, then answered by the world. *)
Definition call_SetDownstream (target stage : StageId) : M W unit :=
  fun st => Returned (tt, mkState (self st)
                                  (ext_SetDownstream target stage (world st))
                                  (calls st ++ [CallSetDownstream target stage])).

Definition call_PushStartUp (target : StageId) (output_start : Z) (dir : Dir) : M W unit :=
  fun st => Returned (tt, mkState (self st)
                                  (ext_PushStartUp target output_start dir (world st))
                                  (calls st ++ [CallPushStartUp target output_start dir])).

Definition call_PushEndDown (target : StageId) (input_end : Z) (dir : Dir) : M W Z :=
  fun st => let (r, w) := ext_PushEndDown target input_end dir (world st) in
            Returned (r, mkState (self st) w
                                 (calls st ++ [CallPushEndDown target input_end dir])).

Definition call_PushCropDown (target : StageId) (interval : Interval) (dir : Dir) : M W unit :=
  fun st => Returned (tt, mkState (self st)
                                  (ext_PushCropDown target interval dir (world st))
                                  (calls st ++ [CallPushCropDown target interval dir])).

(** [SplitStage::SplitStage(name, upstream)]: [upstream_] is set, the
    vector starts empty, and the node registers itself with its upstream
    neighbour.  [this] is the handle of the node under construction;
    [i0] and [c0] stand for what [input_interval_] and [count_] hold after
    member initialisation (their declarations are in the absent header).
    The base-class constructor, which runs before the members exist, and
    the getter [GetPipeline()] are declared in absent headers and left
    out. *)
Definition SplitStage_new (this upstream : StageId) (i0 : Interval) (c0 : nat)
    (w : W) (log : list Call) : Outcome (unit * State W) :=
  call_SetDownstream upstream this
    (mkState (mkSplitStage upstream [] i0 c0) w log).

(** [SplitStage::SetDownstream]: [downstream_.push_back(stage)]. *)
Definition SetDownstream (stage : StageId) : M W unit :=
  ds <- get_downstream ;;
  set_downstream (ds ++ [stage]).

(** [SplitStage::Reset] *)
Definition Reset : M W unit :=
  set_input_interval (Interval2 0 0) ;;
  set_count 0%nat.

(** [SplitStage::PushStartUp] *)
Definition PushStartUp (output_start : Z) (dir : Dir) : M W unit :=
  c <- get_count ;;
  set_count (S c) ;;
  (if Nat.eqb c 0
   then set_input_interval (Interval1 output_start)
   else (i <- get_input_interval ;;
         set_input_interval (Interval_or i output_start))) ;;
  c' <- get_count ;;
  ds <- get_downstream ;;
  if Nat.eqb c' (length ds)
  then (set_count 0%nat ;;
        i <- get_input_interval ;;
        up <- get_upstream ;;
        call_PushStartUp up (offset i) dir)
  else ret tt.

(** [SplitStage::PushEndUp]: only logging in the source. *)
Definition PushEndUp (output_end : Z) (dir : Dir) : M W unit :=
  ret tt.

(** The body of the first loop of [PushEndDown]. *)
Definition probe_branch (input_end : Z) (dir : Dir) (d : StageId) : M W unit :=
  branch_end <- call_PushEndDown d input_end dir ;;
  i <- get_input_interval ;;
  if branch_end <? End_ i
  then set_input_interval (SetEnd i branch_end)
  else ret tt.

(** The body of the second loop of [PushEndDown]. *)
Definition inform_branch (dir : Dir) (d : StageId) : M W unit :=
  i <- get_input_interval ;;
  _ <- call_PushEndDown d (End_ i) dir ;;
  ret tt.

(** [SplitStage::PushEndDown] *)
Definition PushEndDown (input_end : Z) (dir : Dir) : M W Z :=
  i <- get_input_interval ;;
  set_input_interval (SetEnd i input_end) ;;
  ds <- get_downstream ;;
  for_each ds (probe_branch input_end dir) ;;
  ds' <- get_downstream ;;
  for_each ds' (inform_branch dir) ;;
  i1 <- get_input_interval ;;
  PushEndUp (End_ i1) dir ;;
  i2 <- get_input_interval ;;
  ret (End_ i2).

(** [SplitStage::PushCropDown] *)
Definition PushCropDown (interval : Interval) (dir : Dir) : M W unit :=
  i <- get_input_interval ;;
  assert_ (Interval_gt interval i) ;;
  set_input_interval interval ;;
  ds <- get_downstream ;;
  for_each ds (fun d => call_PushCropDown d interval dir).

End Methods.

(** ** Runs, and the quantities the properties speak about *)

(** The smallest of [z] and the elements of [zs]. *)
Definition min_with (z : Z) (zs : list Z) : Z := fold_left Z.min zs z.

(** [min(z1, ..., zn)], defined when there is at least one element. *)
Definition list_min (zs : list Z) : option Z :=
  match zs with
  | [] => None
  | z :: zs' => Some (min_with z zs')
  end.

(** The interval a node holds after [starts] have been pushed into it,
    when it held [i] with counter [c] before and no forward intervened. *)
Fixpoint collect (c : nat) (i : Interval) (starts : list Z) : Interval :=
  match starts with
  | [] => i
  | s :: starts' =>
      collect (S c) (if Nat.eqb c 0 then Interval1 s else Interval_or i s) starts'
  end.

(** What is left of an outcome. *)
Definition final_state {W A} (o : Outcome (A * State W)) : option (State W) :=
  match o with
  | Returned (_, st) => Some st
  | AssertionFailed => None
  end.

Definition returned_value {W A} (o : Outcome (A * State W)) : option A :=
  match o with
  | Returned (a, _) => Some a
  | AssertionFailed => None
  end.

(** The calls in [log] that are [PushEndDown] calls on stage [d]: the ends
    that stage was given, oldest first. *)
Fixpoint ends_given (d : StageId) (log : list Call) : list Z :=
  match log with
  | [] => []
  | CallPushEndDown t e _ :: log' =>
      if Nat.eqb t d then e :: ends_given d log' else ends_given d log'
  | _ :: log' => ends_given d log'
  end.

(** The [PushStartUp] calls of [log] on stage [u]. *)
Fixpoint starts_forwarded (u : StageId) (log : list Call) : list Z :=
  match log with
  | [] => []
  | CallPushStartUp t s _ :: log' =>
      if Nat.eqb t u then s :: starts_forwarded u log' else starts_forwarded u log'
  | _ :: log' => starts_forwarded u log'
  end.

(** The operations of a [SplitStage] as data, to speak of arbitrary
    sequences of them. *)
Inductive Op : Type :=
| OpSetDownstream (stage : StageId)
| OpReset
| OpPushStartUp (output_start : Z) (dir : Dir)
| OpPushEndDown (input_end : Z) (dir : Dir)
| OpPushEndUp (output_end : Z) (dir : Dir)
| OpPushCropDown (interval : Interval) (dir : Dir).

(** The stages registered by a sequence of operations, in call order. *)
Fixpoint registered (ops : list Op) : list StageId :=
  match ops with
  | [] => []
  | OpSetDownstream d :: ops' => d :: registered ops'
  | _ :: ops' => registered ops'
  end.

Section Runs.

Context {W : Type} {SW : StageWorld W}.

(** Phase 1 as the node sees it: one [PushStartUp] per request. *)
Definition push_starts (reqs : list (Z * Dir)) : M W unit :=
  for_each reqs (fun r => PushStartUp (fst r) (snd r)).

(** What the branches [ds] answer when each is probed once, in order, with
    [e]; and the world those probes leave. *)
Fixpoint probe_all (ds : list StageId) (e : Z) (dir : Dir) (w : W) : list Z * W :=
  match ds with
  | [] => ([], w)
  | d :: ds' =>
      let (r, w1) := ext_PushEndDown d e dir w in
      let (rs, w2) := probe_all ds' e dir w1 in
      (r :: rs, w2)
  end.

Definition first_answers (ds : list StageId) (e : Z) (dir : Dir) (w : W) : list Z :=
  fst (probe_all ds e dir w).

(** The world after every branch of [ds] has been told [f]. *)
Fixpoint inform_all (ds : list StageId) (f : Z) (dir : Dir) (w : W) : W :=
  match ds with
  | [] => w
  | d :: ds' => inform_all ds' f dir (snd (ext_PushEndDown d f dir w))
  end.

(** The world after every branch of [ds] has been handed [iv]. *)
Fixpoint crop_all (ds : list StageId) (iv : Interval) (dir : Dir) (w : W) : W :=
  match ds with
  | [] => w
  | d :: ds' => crop_all ds' iv dir (ext_PushCropDown d iv dir w)
  end.

Definition exec_op (o : Op) : M W unit :=
  match o with
  | OpSetDownstream d => SetDownstream d
  | OpReset => Reset
  | OpPushStartUp s dir => PushStartUp s dir
  | OpPushEndDown e dir => (_ <- PushEndDown e dir ;; ret tt)
  | OpPushEndUp e dir => PushEndUp e dir
  | OpPushCropDown iv dir => PushCropDown iv dir
  end.

Definition exec_ops (ops : list Op) : M W unit := for_each ops exec_op.

(** One negotiation of a tile along one axis, as the driver runs it on the
    node: reset, the starts of the branches, the end, the crop. *)
Definition negotiate (reqs : list (Z * Dir)) (e : Z) (J : Interval) (dir : Dir)
    : M W unit :=
  Reset ;;
  push_starts reqs ;;
  _ <- PushEndDown e dir ;;
  PushCropDown J dir.

(** Branches with fixed behaviour: what a branch answers to a probe
    depends on the probe, not on what happened before. *)
Definition fixed_answers : Prop :=
  forall d e dir (w w' : W),
    fst (ext_PushEndDown d e dir w) = fst (ext_PushEndDown d e dir w').

(** Two outcomes agree when both abort, or both return the same value and
    leave the node with the same members. *)
Definition agree {A} (o o' : Outcome (A * State W)) : Prop :=
  match o, o' with
  | Returned (a, st), Returned (a', st') => a = a' /\ self st = self st'
  | AssertionFailed, AssertionFailed => True
  | _, _ => False
  end.

(** A computation that leaves the graph links of the node as they are. *)
Definition keeps_topology {A} (m : M W A) : Prop :=
  forall st a st',
    m st = Returned (a, st') ->
    upstream_ (self st') = upstream_ (self st) /\
    downstream_ (self st') = downstream_ (self st).

(** A computation whose value and whose effect on the node are decided by
    the members of the node alone. *)
Definition node_local {A} (m : M W A) : Prop :=
  forall st st', self st = self st' -> agree (m st) (m st').

End Runs.

(** ** Sample neighbours *)

(** A graph in which branch [d] answers [ans d e] to a probe with [e], and
    which remembers, newest first, which end each stage was last given and
    which start the upstream stage was asked for. *)
Record Notes : Type := mkNotes {
  told_end : list (StageId * Z);
  asked_start : list (StageId * Z)
}.

Definition answering (ans : StageId -> Z -> Z) : StageWorld Notes := {|
  ext_SetDownstream := fun _ _ w => w;
  ext_PushStartUp := fun u s _ w => mkNotes (told_end w) ((u, s) :: asked_start w);
  ext_PushEndDown := fun d e _ w => (ans d e, mkNotes ((d, e) :: told_end w) (asked_start w));
  ext_PushCropDown := fun _ _ _ w => w
|}.

(** Branch [d] can take at most [cap d] pixels. *)
Definition capped (cap : StageId -> Z) : StageWorld Notes :=
  answering (fun d e => Z.min e (cap d)).

(** A branch that claims five pixels more than it is offered. *)
Definition greedy : StageWorld Notes :=
  answering (fun _ e => e + 5).

Definition no_notes : Notes := mkNotes [] [].

(** A node after [Reset] with upstream stage 0 and the branches [ds]. *)
Definition fresh_node (ds : list StageId) : State Notes :=
  mkState (mkSplitStage 0%nat ds (Interval2 0 0) 0%nat) no_notes [].

(** Branch 1 takes up to 80 pixels, branch 2 up to 95, the others 1000. *)
Definition scenario_caps (d : StageId) : Z :=
  match d with
  | 1%nat => 80
  | 2%nat => 95
  | _ => 1000
  end.

(** ** Longer runs of the node *)

(** The call a full round of [PushStartUp] requests makes on the upstream
    stage [up]: one [PushStartUp] with the least start of the round, on the
    axis of the request that completed it. *)
Definition round_call (up : StageId) (round : list (Z * Dir)) : list Call :=
  match list_min (map fst round) with
  | Some m => [CallPushStartUp up m (snd (last round (0, DirX)))]
  | None => []
  end.

(** Every interval of [Js] extends the one before it, the first one [I]. *)
Fixpoint chain_extends (I : Interval) (Js : list Interval) : bool :=
  match Js with
  | [] => true
  | J :: Js' => Interval_gt J I && chain_extends J Js'
  end.

Definition is_crop (o : Op) : bool :=
  match o with
  | OpPushCropDown _ _ => true
  | _ => false
  end.

Section LongerRuns.

Context {W : Type} {SW : StageWorld W}.

(** [PushCropDown] called once for each interval of [Js], in order. *)
Definition push_crops (Js : list Interval) (dir : Dir) : M W unit :=
  for_each Js (fun J => PushCropDown J dir).

(** The world after the crops [Js] have each gone down all the branches. *)
Fixpoint crop_rounds (ds : list StageId) (Js : list Interval) (dir : Dir) (w : W) : W :=
  match Js with
  | [] => w
  | J :: Js' => crop_rounds ds Js' dir (crop_all ds J dir w)
  end.

End LongerRuns.

(** * The VC4 pipeline handler

    Parts of src/libcamera/pipeline/raspberrypi/vc4/vc4.cpp: the pairing
    of image and embedded-data buffers, the validation of a stream
    configuration, the number of buffers to allocate, and the reading of
    the pipeline configuration. *)

Module Vc4.

(** ** [findMatchingBuffers] *)

(** A [FrameBuffer *] of a queue: the handle of the buffer and what
    [metadata().timestamp] reads from it (a [uint64_t]; timestamps are
    only compared). *)
Record FrameBuffer : Type := mkFrameBuffer { fb_handle : nat; timestamp : N }.

Section Buffers.

(** [ControlList] is declared in an absent header; a [BayerFrame] only
    carries it along. *)
Variable ControlList : Type.

(** [struct BayerFrame] *)
Record BayerFrame : Type := mkBayerFrame {
  buffer : FrameBuffer;
  controls : ControlList;
  delayContext : N
}.

(** The members of [Vc4CameraData] the function uses, and the buffers it
    has handed back through [unicam_[Unicam::Embedded].returnBuffer],
    oldest first.  Queues have their front at the head. *)
Record Queues : Type := mkQueues {
  bayerQueue_ : list BayerFrame;
  embeddedQueue_ : list FrameBuffer;
  sensorMetadata_ : bool;
  returned : list FrameBuffer
}.

(** The [while] loop: the embedded queue, [embeddedBuffer] and the
    returned buffers when the loop is left. *)
Fixpoint match_embedded (ts : N) (q : list FrameBuffer) (ret : list FrameBuffer)
    : list FrameBuffer * option FrameBuffer * list FrameBuffer :=
  match q with
  | [] => ([], None, ret)
  | b :: q' =>
      if (timestamp b <? ts)%N then match_embedded ts q' (ret ++ [b])
      else if (timestamp b =? ts)%N then (q', Some b, ret)
      else (q, None, ret)
  end.

(** [Vc4CameraData::findMatchingBuffers].  The two reference parameters
    come in with the values the caller's variables hold and go out with
    the values the function leaves in them. *)
Definition findMatchingBuffers (st : Queues)
    (bayerFrame : BayerFrame) (embeddedBuffer : option FrameBuffer)
    : bool * BayerFrame * option FrameBuffer * Queues :=
  match bayerQueue_ st with
  | [] => (false, bayerFrame, embeddedBuffer, st)
  | front :: rest =>
      let ts := timestamp (buffer front) in
      let '(q, eb, ret) := match_embedded ts (embeddedQueue_ st) (returned st) in
      if match eb with None => sensorMetadata_ st | Some _ => false end
         && match q with [] => true | _ => false end
      then (false, bayerFrame, eb, mkQueues (bayerQueue_ st) q (sensorMetadata_ st) ret)
      else (true, front, eb, mkQueues rest q (sensorMetadata_ st) ret)
  end.

End Buffers.

Arguments buffer {ControlList} _.
Arguments controls {ControlList} _.
Arguments delayContext {ControlList} _.
Arguments bayerQueue_ {ControlList} _.
Arguments embeddedQueue_ {ControlList} _.
Arguments sensorMetadata_ {ControlList} _.
Arguments returned {ControlList} _.
Arguments mkBayerFrame {ControlList} _ _ _.
Arguments mkQueues {ControlList} _ _ _ _.
Arguments findMatchingBuffers {ControlList} _ _ _.

(** The timestamps of a queue never decrease from front to back. *)
Fixpoint in_arrival_order (q : list FrameBuffer) : bool :=
  match q with
  | [] => true
  | b :: q' =>
      match q' with
      | [] => true
      | b' :: _ => (timestamp b <=? timestamp b')%N && in_arrival_order q'
      end
  end.

(** ** Streams and devices *)

(** [enum class Unicam] and [enum class Isp], the indices of the device
    streams. *)
Inductive Unicam : Type := Image | Embedded.
Inductive Isp : Type := Input | Output0 | Output1 | Stats.

(** [&unicam_[u]] and [&isp_[i]]: a stream of the camera.  The video
    device of a stream, [.dev()], is named by its stream. *)
Inductive StreamRef : Type :=
| UnicamStream (u : Unicam)
| IspStream (i : Isp).

(** ** [platformValidate] *)

(** [Size] is declared in an absent header; the function reads and writes
    its members [width] and [height] (both [unsigned int]) and compares
    two sizes with [!=]. *)
Record Size : Type := mkSize { width : N; height : N }.

Definition Size_ne (a b : Size) : bool :=
  negb ((width a =? width b)%N && (height a =? height b)%N).

(** [StreamParams] is declared in an absent header; these are the parts
    the function touches: the size of the stream configuration [cfg]
    points to, and the device [dev] (null until assigned).  Each entry has
    a configuration of its own. *)
Record StreamParams : Type := mkStreamParams {
  cfg_size : Size;
  dev : option StreamRef
}.

(** [CameraConfiguration::Status] *)
Inductive Status : Type := Valid | Adjusted | Invalid.

(** [v[i] = x] *)
Fixpoint update {A} (v : list A) (i : nat) (x : A) : list A :=
  match v, i with
  | [], _ => []
  | _ :: v', O => x :: v'
  | a :: v', S i' => a :: update v' i' x
  end.

(** The body of the loop over [outStreams], at index [i]. *)
Definition validate_out (acc : Status * list StreamParams) (i : nat)
    : Status * list StreamParams :=
  let (status, outStreams) := acc in
  match nth_error outStreams i, nth_error outStreams 0 with
  | Some oi, Some o0 =>
      let size := mkSize (N.min (width (cfg_size oi)) (width (cfg_size o0)))
                         (N.min (height (cfg_size oi)) (height (cfg_size o0))) in
      let output := IspStream (if Nat.eqb i 0 then Output0 else Output1) in
      if Size_ne (cfg_size oi) size
      then (Adjusted, update outStreams i (mkStreamParams size (Some output)))
      else (status, update outStreams i (mkStreamParams (cfg_size oi) (Some output)))
  | _, _ => acc
  end.

(** [Vc4CameraData::platformValidate]: the status, and the two vectors as
    the function leaves them. *)
Definition platformValidate (rawStreams outStreams : list StreamParams)
    : Status * list StreamParams * list StreamParams :=
  if (1 <? length rawStreams)%nat || (2 <? length outStreams)%nat
  then (Invalid, rawStreams, outStreams)
  else
    let rawStreams' :=
      match rawStreams with
      | [] => []
      | r :: rs => mkStreamParams (cfg_size r) (Some (UnicamStream Image)) :: rs
      end in
    let (status, outStreams') :=
      fold_left validate_out (seq 0 (length outStreams)) (Valid, outStreams) in
    (status, rawStreams', outStreams').

(** One size fits in the other in both dimensions. *)
Definition fits_in (a b : Size) : Prop :=
  (width a <= width b)%N /\ (height a <= height b)%N.

(** The size the loop leaves in an entry that held [a], beside the first
    output [o]. *)
Definition clamped (a o : Size) : Size :=
  mkSize (N.min (width a) (width o)) (N.min (height a) (height o)).

(** ** [platformPipelineConfigure] *)

(** [struct Config] *)
Record Config : Type := mkConfig {
  minUnicamBuffers : Z;
  minTotalUnicamBuffers : Z
}.

(** [EINVAL] of errno.h on Linux. *)
Definition EINVAL : Z := 22.

Section Configure.

(** The version of the file is a [double] that is only compared with
    [1.0]. *)
Variable double : Type.
Variable is_1_0 : double -> bool.

(** What the function reads of the configuration file ([YamlObject] is
    declared in an absent header): [version], [target], and the two values
    under [pipeline_handler], each present when the file has the key with
    a value of the type asked for (an [unsigned int] for the last two). *)
Record YamlRoot : Type := mkYamlRoot {
  version : option double;
  target : option String.string;
  min_unicam_buffers : option Z;
  min_total_unicam_buffers : option Z
}.

(** [get<T>(defaultValue)] *)
Definition get_or {A} (default : A) (v : option A) : A :=
  match v with
  | Some a => a
  | None => default
  end.

(** [Vc4CameraData::platformPipelineConfigure]: the value returned and
    [config_] as the function leaves it; [root] is [None] for a null
    pointer. *)
Definition platformPipelineConfigure (root : option YamlRoot) : Z * Config :=
  let config_ := mkConfig 2 4 in
  match root with
  | None => (0, config_)
  | Some r =>
      if match version r with Some ver => negb (is_1_0 ver) | None => true end
      then (- EINVAL, config_)
      else if match target r with
              | Some t => negb (String.eqb t "bcm2835")
              | None => true
              end
      then (- EINVAL, config_)
      else
        let config_ :=
          mkConfig (get_or (minUnicamBuffers config_) (min_unicam_buffers r))
                   (minTotalUnicamBuffers config_) in
        let config_ :=
          mkConfig (minUnicamBuffers config_)
                   (get_or (minTotalUnicamBuffers config_) (min_total_unicam_buffers r)) in
        if minTotalUnicamBuffers config_ <? minUnicamBuffers config_
        then (- EINVAL, config_)
        else if minTotalUnicamBuffers config_ <? 1
        then (- EINVAL, config_)
        else (0, config_)
  end.

End Configure.

Arguments mkYamlRoot {double} _ _ _ _.
Arguments version {double} _.
Arguments target {double} _.
Arguments min_unicam_buffers {double} _.
Arguments min_total_unicam_buffers {double} _.
Arguments platformPipelineConfigure {double} _ _.

(** ** [prepareBuffers] *)

(** Arithmetic on [unsigned int] wraps modulo [2^32]; the conversion to
    [int] that [std::max<int>] makes reads the same 32 bits as a signed
    number. *)
Definition wrap32 (z : Z) : Z := z mod 2 ^ 32.

Definition as_int (z : Z) : Z :=
  if wrap32 z <? 2 ^ 31 then wrap32 z else wrap32 z - 2 ^ 32.

(** [std::max<int>(a, b)] on two [unsigned int] arguments. *)
Definition max_int (a b : Z) : Z := Z.max (as_int a) (as_int b).

(** What the first loop reads of a stream of the camera: whether its
    pixel format is a Bayer format ([BayerFormat::fromPixelFormat] is
    declared in an absent header) and its [bufferCount]. *)
Record StreamCfg : Type := mkStreamCfg { is_bayer : bool; bufferCount : Z }.

(** The first loop: [numRawBuffers]. *)
Fixpoint numRawBuffers_of (streams : list StreamCfg) : Z :=
  match streams with
  | [] => 0
  | s :: streams' => if is_bayer s then bufferCount s else numRawBuffers_of streams'
  end.

(** [numBuffers] for one stream of [streams_]. *)
Definition numBuffers_of (config_ : Config) (numRawBuffers : Z) (stream : StreamRef) : Z :=
  let minBuffers := minTotalUnicamBuffers config_ in
  match stream with
  | UnicamStream Image =>
      wrap32 (max_int (minUnicamBuffers config_) (wrap32 (minBuffers - numRawBuffers)))
  | IspStream Input =>
      wrap32 (numRawBuffers
              + max_int (minUnicamBuffers config_) (wrap32 (minBuffers - numRawBuffers)))
  | UnicamStream Embedded => minBuffers
  | _ => 1
  end.

(** [RPi::MaskStats] and [RPi::MaskEmbeddedData], by name. *)
Inductive Mask : Type := MaskStats | MaskEmbeddedData.

(** The calls [prepareBuffers] makes: [stream->prepareBuffers(n)] and
    [mapBuffers(camera, stream.getBuffers(), mask)]. *)
Inductive DevCall : Type :=
| CallPrepareBuffers (stream : StreamRef) (numBuffers : Z)
| CallMapBuffers (stream : StreamRef) (mask : Mask).

Section PrepareBuffers.

(** The devices: [D] is their state, [ext_prepareBuffers] what
    [Stream::prepareBuffers] does to it and returns, [ext_mapBuffers] what
    [mapBuffers] does to it. *)
Variable D : Type.
Variable ext_prepareBuffers : StreamRef -> Z -> D -> Z * D.
Variable ext_mapBuffers : StreamRef -> Mask -> D -> D.

(** The second loop; [Some ret] when it returns [ret] from the function. *)
Fixpoint prepare_streams (config_ : Config) (numRawBuffers : Z)
    (streams_ : list StreamRef) (d : D) (log : list DevCall)
    : option Z * D * list DevCall :=
  match streams_ with
  | [] => (None, d, log)
  | stream :: streams' =>
      let numBuffers := numBuffers_of config_ numRawBuffers stream in
      let (ret, d1) := ext_prepareBuffers stream numBuffers d in
      let log1 := log ++ [CallPrepareBuffers stream numBuffers] in
      if ret <? 0 then (Some ret, d1, log1)
      else prepare_streams config_ numRawBuffers streams' d1 log1
  end.

(** [PipelineHandlerVc4::prepareBuffers]: the value returned, the devices
    and the calls made.  [camera_streams] is [camera->streams()] in the
    order of iteration, [streams_], [config_] and [sensorMetadata_] are
    the members of the camera data. *)
Definition prepareBuffers (camera_streams : list StreamCfg)
    (streams_ : list StreamRef) (config_ : Config) (sensorMetadata_ : bool)
    (d : D) (log : list DevCall) : Z * D * list DevCall :=
  let numRawBuffers := numRawBuffers_of camera_streams in
  match prepare_streams config_ numRawBuffers streams_ d log with
  | (Some ret, d1, log1) => (ret, d1, log1)
  | (None, d1, log1) =>
      let d2 := ext_mapBuffers (IspStream Stats) MaskStats d1 in
      let log2 := log1 ++ [CallMapBuffers (IspStream Stats) MaskStats] in
      if sensorMetadata_
      then (0, ext_mapBuffers (UnicamStream Embedded) MaskEmbeddedData d2,
            log2 ++ [CallMapBuffers (UnicamStream Embedded) MaskEmbeddedData])
      else (0, d2, log2)
  end.

End PrepareBuffers.

Arguments prepare_streams {D} _ _ _ _ _ _.
Arguments prepareBuffers {D} _ _ _ _ _ _ _ _.

(** ** [tryRunPipeline] *)

(** [state_]: the enumerators of [State] the file names; the enumeration
    is declared in an absent header and its other values are lumped into
    [OtherState]. *)
Inductive State : Type := Idle | Busy | IpaComplete | OtherState.

Definition is_idle (s : State) : bool :=
  match s with
  | Idle => true
  | _ => false
  end.

Section Pipeline.

Variable ControlList : Type.

(** [RPi::MaskBayerData] and [RPi::MaskEmbeddedData], and
    [Stream::getBufferId], are declared in absent headers. *)
Variable MaskBayerData MaskEmbeddedData : Z.
Variable getBufferId : Unicam -> FrameBuffer -> Z.

(** What [tryRunPipeline] puts into [ipa::RPi::PrepareParams]: the two
    buffer ids ([buffers_embedded] is [None] when the field is left as
    constructed), the sensor controls moved out of the Bayer frame, the
    request whose controls and sequence number fill [requestControls] and
    [ipaContext] (a [Request *], by its handle), and the delay context. *)
Record PrepareParams : Type := mkPrepareParams {
  buffers_bayer : Z;
  buffers_embedded : option Z;
  sensorControls : ControlList;
  of_request : nat;
  params_delayContext : N
}.

(** The calls [tryRunPipeline] makes outside the queues: on the base
    class, on the request and on the IPA. *)
Inductive PipelineCall : Type :=
| CallCalculateScalerCrop (request : nat)
| CallClearMetadata (request : nat)
| CallFillRequestMetadata (bufferControls : ControlList) (request : nat)
| CallSignalPrepareIsp (params : PrepareParams).

(** The members of the camera data [tryRunPipeline] uses, and the calls
    made so far.  The calls on the base class and on the request are
    taken to leave these members alone. *)
Record CameraData : Type := mkCameraData {
  state_ : State;
  requestQueue_ : list nat;
  queues : Queues ControlList;
  pipeline_calls : list PipelineCall
}.

Definition is_empty {A} (q : list A) : bool :=
  match q with
  | [] => true
  | _ => false
  end.

(** [Vc4CameraData::tryRunPipeline].  [bayerFrame] and [embeddedBuffer]
    are what its two local variables hold before they are assigned. *)
Definition tryRunPipeline (c : CameraData)
    (bayerFrame : BayerFrame ControlList) (embeddedBuffer : option FrameBuffer)
    : CameraData :=
  if negb (is_idle (state_ c)) || is_empty (requestQueue_ c)
     || is_empty (bayerQueue_ (queues c))
     || (is_empty (embeddedQueue_ (queues c)) && sensorMetadata_ (queues c))
  then c
  else
    let '(found, bayerFrame, embeddedBuffer, q) :=
      findMatchingBuffers (queues c) bayerFrame embeddedBuffer in
    if negb found
    then mkCameraData (state_ c) (requestQueue_ c) q (pipeline_calls c)
    else
      match requestQueue_ c with
      | [] => c
      | request :: _ =>
          let bayer := getBufferId Image (buffer bayerFrame) in
          let params :=
            mkPrepareParams
              (Z.lor MaskBayerData bayer)
              (match embeddedBuffer with
               | Some b => Some (Z.lor MaskEmbeddedData (getBufferId Embedded b))
               | None => None
               end)
              (controls bayerFrame) request (delayContext bayerFrame) in
          mkCameraData Busy (requestQueue_ c) q
            (pipeline_calls c
             ++ [CallCalculateScalerCrop request;
                 CallClearMetadata request;
                 CallFillRequestMetadata (controls bayerFrame) request;
                 CallSignalPrepareIsp params])
      end.

End Pipeline.

Arguments mkPrepareParams {ControlList} _ _ _ _ _.
Arguments buffers_bayer {ControlList} _.
Arguments buffers_embedded {ControlList} _.
Arguments sensorControls {ControlList} _.
Arguments of_request {ControlList} _.
Arguments CallCalculateScalerCrop {ControlList} _.
Arguments CallClearMetadata {ControlList} _.
Arguments CallFillRequestMetadata {ControlList} _ _.
Arguments CallSignalPrepareIsp {ControlList} _.
Arguments mkCameraData {ControlList} _ _ _ _.
Arguments state_ {ControlList} _.
Arguments requestQueue_ {ControlList} _.
Arguments queues {ControlList} _.
Arguments pipeline_calls {ControlList} _.
Arguments tryRunPipeline {ControlList} _ _ _ _ _ _.

(** ** Sample data *)

(** An image with timestamp 20 waits while embedded buffers with
    timestamps 10, 15, 20 and 30 are queued; the sensor has embedded data;
    control lists are left out. *)
Definition sample_frame : BayerFrame unit :=
  mkBayerFrame (mkFrameBuffer 7 20) tt 0.

Definition sample_queues : Queues unit :=
  mkQueues [sample_frame]
           [mkFrameBuffer 1 10; mkFrameBuffer 2 15; mkFrameBuffer 3 20; mkFrameBuffer 4 30]
           true [].

(** An idle camera with request 42 queued and the sample queues. *)
Definition sample_camera : CameraData unit :=
  mkCameraData Idle [42%nat] sample_queues [].

(** Buffer ids are the handles of the buffers here, and the two masks the
    bits 16 and 17. *)
Definition sample_buffer_id (u : Unicam) (b : FrameBuffer) : Z :=
  Z.of_nat (fb_handle b).

(** Two outputs: 1920x1080 first, then 2592x720, wider than the first. *)
Definition sample_outputs : list StreamParams :=
  [mkStreamParams (mkSize 1920 1080) None; mkStreamParams (mkSize 2592 720) None].

(** A configuration file of version 1.0 (a version is taken to be the
    answer to "is it 1.0?") for "bcm2835" that asks for three internal
    buffers and says nothing of the total. *)
Local Open Scope string_scope.
Definition sample_root : YamlRoot bool :=
  mkYamlRoot (Some true) (Some "bcm2835") (Some 3) None.
Local Close Scope string_scope.

(** Devices on which preparing the buffers of ISP output 1 fails with
    [-12] and everything else succeeds. *)
Definition sample_prepare (s : StreamRef) (n : Z) (d : unit) : Z * unit :=
  match s with
  | IspStream Output1 => (-12, d)
  | _ => (0, d)
  end.

Definition sample_map (s : StreamRef) (m : Mask) (d : unit) : unit := d.

Definition sample_streams : list StreamRef :=
  [UnicamStream Image; IspStream Input; IspStream Output0; IspStream Output1;
   IspStream Stats].

End Vc4.

(** * Properties *)

(** ** Arithmetic of minima *)

Lemma clamp_is_min (r en : Z) : (if r <? en then r else en) = Z.min en r.
Proof. destruct (Z.ltb_spec r en); lia. Qed.

Lemma min_with_le_init (zs : list Z) : forall z, min_with z zs <= z.
Proof.
  unfold min_with. induction zs as [|a zs IH]; intros z; simpl.
  - lia.
  - specialize (IH (Z.min z a)). lia.
Qed.

Lemma min_with_le_elem (zs : list Z) : forall z a, In a zs -> min_with z zs <= a.
Proof.
  unfold min_with. induction zs as [|b zs IH]; intros z a Hin; simpl.
  - destruct Hin.
  - destruct Hin as [->|Hin].
    + pose proof (min_with_le_init zs (Z.min z a)) as Hle.
      unfold min_with in Hle. lia.
    + apply IH, Hin.
Qed.

Lemma min_with_attained (zs : list Z) : forall z, min_with z zs = z \/ In (min_with z zs) zs.
Proof.
  unfold min_with. induction zs as [|a zs IH]; intros z; simpl.
  - now left.
  - destruct (IH (Z.min z a)) as [E|Hin].
    + rewrite E. destruct (Z.min_spec z a) as [[_ ->]|[_ ->]]; auto.
    + auto.
Qed.

(** A minimum is fixed by its two defining properties. *)
Lemma min_with_unique (zs : list Z) (z m : Z) :
  m <= z -> (forall a, In a zs -> m <= a) -> (m = z \/ In m zs) ->
  min_with z zs = m.
Proof.
  intros Hz Hall Hm.
  pose proof (min_with_le_init zs z) as H1.
  pose proof (min_with_le_elem zs z) as H2.
  destruct (min_with_attained zs z) as [E|Hin]; destruct Hm as [->|Hm].
  - assumption.
  - specialize (H2 m Hm). lia.
  - specialize (Hall _ Hin). lia.
  - specialize (Hall _ Hin). specialize (H2 m Hm). lia.
Qed.

(** Once some element is at most [z], [z] no longer matters. *)
Lemma min_with_drop_init (zs : list Z) (z : Z) :
  (exists a, In a zs /\ a <= z) -> list_min zs = Some (min_with z zs).
Proof.
  intros (a & Ha & Hle).
  destruct zs as [|z0 zs]; [destruct Ha|]. cbn [list_min]. f_equal.
  pose proof (min_with_le_elem (z0 :: zs) z) as Hall.
  apply min_with_unique.
  - apply Hall. now left.
  - intros b Hb. apply Hall. now right.
  - destruct (min_with_attained (z0 :: zs) z) as [E|[E|Hin]]; auto.
    specialize (Hall a Ha).
    assert (a = min_with z (z0 :: zs)) as <- by lia.
    destruct Ha; auto.
Qed.

Lemma min_with_perm (zs zs' : list Z) (z z' : Z) :
  Permutation (z :: zs) (z' :: zs') -> min_with z zs = min_with z' zs'.
Proof.
  intros P. apply min_with_unique.
  - assert (Hin : In z (z' :: zs')) by (eapply Permutation_in; [exact P | now left]).
    destruct Hin as [<-|Hin]; [apply min_with_le_init | now apply min_with_le_elem].
  - intros a Ha.
    assert (Hin : In a (z' :: zs')) by (eapply Permutation_in; [exact P | now right]).
    destruct Hin as [<-|Hin]; [apply min_with_le_init | now apply min_with_le_elem].
  - assert (Hin : In (min_with z' zs') (z :: zs)).
    { eapply Permutation_in; [symmetry; exact P |].
      destruct (min_with_attained zs' z') as [->|Hin]; [now left | now right]. }
    destruct Hin as [<-|Hin]; auto.
Qed.

Lemma list_min_perm (zs zs' : list Z) :
  Permutation zs zs' -> list_min zs = list_min zs'.
Proof.
  intros P. destruct zs as [|z zs], zs' as [|z' zs']; simpl.
  - reflexivity.
  - apply Permutation_nil in P. discriminate.
  - symmetry in P. apply Permutation_nil in P. discriminate.
  - f_equal. now apply min_with_perm.
Qed.

(** ** The extends relation *)

Lemma Interval_gt_spec (J I : Interval) :
  Interval_gt J I = true <-> offset J <= offset I /\ End_ I <= End_ J.
Proof.
  unfold Interval_gt, End_. rewrite andb_true_iff, !Z.leb_le. tauto.
Qed.

Lemma Interval_gt_refl (I : Interval) : Interval_gt I I = true.
Proof. apply Interval_gt_spec. lia. Qed.

(** ** Reading the call log *)

Lemma ends_given_app (d : StageId) (l1 l2 : list Call) :
  ends_given d (l1 ++ l2) = ends_given d l1 ++ ends_given d l2.
Proof.
  induction l1 as [|c l1 IH]; simpl; [reflexivity|].
  destruct c; try assumption.
  destruct (Nat.eqb target d); simpl; now rewrite IH.
Qed.

Lemma ends_given_round (d : StageId) (e : Z) (dir : Dir) (ds : list StageId) :
  ends_given d (map (fun t => CallPushEndDown t e dir) ds)
  = repeat e (count_occ Nat.eq_dec ds d).
Proof.
  induction ds as [|t ds IH]; simpl; [reflexivity|].
  destruct (Nat.eq_dec t d) as [->|Hne].
  - rewrite Nat.eqb_refl. simpl. now rewrite IH.
  - apply Nat.eqb_neq in Hne. now rewrite Hne.
Qed.

Lemma starts_forwarded_app (u : StageId) (l1 l2 : list Call) :
  starts_forwarded u (l1 ++ l2) = starts_forwarded u l1 ++ starts_forwarded u l2.
Proof.
  induction l1 as [|c l1 IH]; simpl; [reflexivity|].
  destruct c; try assumption.
  destruct (Nat.eqb target u); simpl; now rewrite IH.
Qed.

(** ** The loops *)

Section Loops.

Context {W : Type} {SW : StageWorld W}.

Lemma for_each_app {A} (l1 l2 : list A) (body : A -> M W unit) (st : State W) :
  for_each (l1 ++ l2) body st = (for_each l1 body ;; for_each l2 body) st.
Proof.
  revert st. induction l1 as [|a l1 IH]; intros st; simpl.
  - reflexivity.
  - unfold bind. destruct (body a st) as [[[] st1]|]; [|reflexivity].
    rewrite IH. reflexivity.
Qed.

Lemma run_probe_branch (d up : StageId) (dss : list StageId) (o en : Z) (c : nat)
    (w : W) (log : list Call) (e : Z) (dir : Dir) :
  probe_branch e dir d (mkState (mkSplitStage up dss (mkInterval o en) c) w log)
  = Returned (tt,
      mkState (mkSplitStage up dss
                 (mkInterval o (Z.min en (fst (ext_PushEndDown d e dir w)))) c)
              (snd (ext_PushEndDown d e dir w))
              (log ++ [CallPushEndDown d e dir])).
Proof.
  unfold probe_branch, bind, call_PushEndDown. simpl.
  destruct (ext_PushEndDown d e dir w) as [r w1]. simpl.
  rewrite <- clamp_is_min. destruct (r <? en); reflexivity.
Qed.

Lemma run_probe_loop (ds : list StageId) :
  forall up dss o en c w log e dir,
    for_each ds (probe_branch e dir)
      (mkState (mkSplitStage up dss (mkInterval o en) c) w log)
    = Returned (tt,
        mkState (mkSplitStage up dss (mkInterval o (min_with en (first_answers ds e dir w))) c)
                (snd (probe_all ds e dir w))
                (log ++ map (fun d => CallPushEndDown d e dir) ds)).
Proof.
  induction ds as [|d ds IH]; intros up dss o en c w log e dir.
  - simpl. now rewrite app_nil_r.
  - cbn [for_each]. unfold bind. rewrite run_probe_branch, IH.
    unfold first_answers. cbn [probe_all map].
    destruct (ext_PushEndDown d e dir w) as [r w1]. cbn [fst snd].
    destruct (probe_all ds e dir w1) as [rs w2]. cbn [fst snd].
    now rewrite <- app_assoc.
Qed.

Lemma run_inform_branch (d : StageId) (s : SplitStage) (w : W) (log : list Call)
    (dir : Dir) :
  inform_branch dir d (mkState s w log)
  = Returned (tt,
      mkState s (snd (ext_PushEndDown d (End_ (input_interval_ s)) dir w))
              (log ++ [CallPushEndDown d (End_ (input_interval_ s)) dir])).
Proof.
  unfold inform_branch, bind, call_PushEndDown. simpl.
  now destruct (ext_PushEndDown d (End_ (input_interval_ s)) dir w).
Qed.

Lemma run_inform_loop (ds : list StageId) :
  forall s w log dir,
    for_each ds (inform_branch dir) (mkState s w log)
    = Returned (tt,
        mkState s (inform_all ds (End_ (input_interval_ s)) dir w)
                (log ++ map (fun d => CallPushEndDown d (End_ (input_interval_ s)) dir) ds)).
Proof.
  induction ds as [|d ds IH]; intros s w log dir.
  - simpl. now rewrite app_nil_r.
  - cbn [for_each]. unfold bind. rewrite run_inform_branch, IH.
    cbn [inform_all map]. now rewrite <- app_assoc.
Qed.

Lemma run_crop_loop (ds : list StageId) :
  forall s w log iv dir,
    for_each ds (fun d => call_PushCropDown d iv dir) (mkState s w log)
    = Returned (tt,
        mkState s (crop_all ds iv dir w)
                (log ++ map (fun d => CallPushCropDown d iv dir) ds)).
Proof.
  induction ds as [|d ds IH]; intros s w log iv dir.
  - simpl. now rewrite app_nil_r.
  - cbn [for_each]. unfold bind.
    change (call_PushCropDown d iv dir (mkState s w log))
      with (Returned (tt, mkState s (ext_PushCropDown d iv dir w)
                                  (log ++ [CallPushCropDown d iv dir]))).
    cbv beta iota. rewrite IH. cbn [crop_all map]. now rewrite <- app_assoc.
Qed.

(** [PushEndDown] in closed form: it always returns. *)
Lemma run_PushEndDown (up : StageId) (dss : list StageId) (o en : Z) (c : nat)
    (w : W) (log : list Call) (e : Z) (dir : Dir) :
  PushEndDown e dir (mkState (mkSplitStage up dss (mkInterval o en) c) w log)
  = Returned (min_with e (first_answers dss e dir w),
      mkState (mkSplitStage up dss
                 (mkInterval o (min_with e (first_answers dss e dir w))) c)
              (inform_all dss (min_with e (first_answers dss e dir w)) dir
                 (snd (probe_all dss e dir w)))
              (log ++ map (fun d => CallPushEndDown d e dir) dss
                   ++ map (fun d => CallPushEndDown d (min_with e (first_answers dss e dir w)) dir) dss)).
Proof.
  unfold PushEndDown, bind, get_input_interval, set_input_interval,
    get_downstream, SetEnd, with_input_interval, PushEndUp, ret.
  cbn [self world calls upstream_ downstream_ input_interval_ count_ offset].
  rewrite run_probe_loop. cbn [self downstream_].
  rewrite run_inform_loop. cbn [self input_interval_ End_ end_].
  now rewrite <- app_assoc.
Qed.

End Loops.

(** ** The single methods in closed form *)

Section ClosedForms.

Context {W : Type} {SW : StageWorld W}.

Lemma run_Reset (s : SplitStage) (w : W) (log : list Call) :
  Reset (mkState s w log)
  = Returned (tt, mkState (mkSplitStage (upstream_ s) (downstream_ s) (Interval2 0 0) 0) w log).
Proof. reflexivity. Qed.

Lemma run_SetDownstream (d : StageId) (s : SplitStage) (w : W) (log : list Call) :
  SetDownstream d (mkState s w log)
  = Returned (tt, mkState (with_downstream s (downstream_ s ++ [d])) w log).
Proof. reflexivity. Qed.

Lemma run_PushStartUp (up : StageId) (dss : list StageId) (i : Interval) (c : nat)
    (w : W) (log : list Call) (s : Z) (dir : Dir) :
  PushStartUp s dir (mkState (mkSplitStage up dss i c) w log)
  = if Nat.eqb (S c) (length dss)
    then Returned (tt,
           mkState (mkSplitStage up dss (collect c i [s]) 0)
                   (ext_PushStartUp up (offset (collect c i [s])) dir w)
                   (log ++ [CallPushStartUp up (offset (collect c i [s])) dir]))
    else Returned (tt, mkState (mkSplitStage up dss (collect c i [s]) (S c)) w log).
Proof.
  unfold PushStartUp, bind, get_count, set_count, get_downstream. cbn.
  destruct c as [|c]; cbn; destruct (length dss) as [|[|n]]; cbn;
    try reflexivity; destruct (Nat.eqb c n); reflexivity.
Qed.

Lemma run_PushCropDown (up : StageId) (dss : list StageId) (i : Interval) (c : nat)
    (w : W) (log : list Call) (J : Interval) (dir : Dir) :
  PushCropDown J dir (mkState (mkSplitStage up dss i c) w log)
  = if Interval_gt J i
    then Returned (tt,
           mkState (mkSplitStage up dss J c) (crop_all dss J dir w)
                   (log ++ map (fun d => CallPushCropDown d J dir) dss))
    else AssertionFailed.
Proof.
  unfold PushCropDown, bind, get_input_interval, assert_, set_input_interval,
    get_downstream, with_input_interval.
  cbn [self world calls upstream_ downstream_ input_interval_ count_].
  destruct (Interval_gt J i); [|reflexivity].
  now rewrite run_crop_loop.
Qed.

(** The counter stays below the number of branches: whatever integer type
    the source gives [count_], it cannot overflow before the vector does. *)
Lemma PushStartUp_count_below (st st' : State W) (s : Z) (dir : Dir) :
  (count_ (self st) < length (downstream_ (self st)))%nat ->
  PushStartUp s dir st = Returned (tt, st') ->
  (count_ (self st') < length (downstream_ (self st')))%nat.
Proof.
  destruct st as [[up dss i c] w log]. cbn [self count_ downstream_].
  intros Hlt. rewrite run_PushStartUp.
  destruct (Nat.eqb_spec (S c) (length dss)) as [E|NE]; intros [= <-];
    cbn [self count_ downstream_]; lia.
Qed.

(** ** Phase 1: the counting gate *)

Lemma collect_app (ss1 ss2 : list Z) :
  forall c i, collect c i (ss1 ++ ss2) = collect (c + length ss1) (collect c i ss1) ss2.
Proof.
  induction ss1 as [|s ss1 IH]; intros c i; cbn [collect app length].
  - now rewrite Nat.add_0_r.
  - rewrite IH. now rewrite Nat.add_succ_r.
Qed.

Lemma offset_collect_later (ss : list Z) :
  forall c i, offset (collect (S c) i ss) = min_with (offset i) ss.
Proof.
  induction ss as [|s ss IH]; intros c i; cbn [collect]; [reflexivity|].
  rewrite IH. reflexivity.
Qed.

Lemma offset_collect_first (s : Z) (ss : list Z) (i : Interval) :
  offset (collect 0 i (s :: ss)) = min_with s ss.
Proof. cbn [collect Nat.eqb]. now rewrite offset_collect_later. Qed.

(** Below the branch count nothing leaves the node. *)
Lemma push_starts_below (reqs : list (Z * Dir)) :
  forall up dss i c w log,
    (c + length reqs < length dss)%nat ->
    push_starts reqs (mkState (mkSplitStage up dss i c) w log)
    = Returned (tt,
        mkState (mkSplitStage up dss (collect c i (map fst reqs)) (c + length reqs)) w log).
Proof.
  unfold push_starts.
  induction reqs as [|[s d] reqs IH]; intros up dss i c w log Hlt; cbn [length] in Hlt.
  - cbn. now rewrite Nat.add_0_r.
  - cbn [for_each fst snd]. unfold bind. rewrite run_PushStartUp.
    destruct (Nat.eqb_spec (S c) (length dss)) as [E|NE]; [lia|].
    rewrite IH by lia. cbn [map fst length collect].
    now rewrite Nat.add_succ_r.
Qed.

(** The call that completes the count forwards once. *)
Lemma push_starts_exact (reqs : list (Z * Dir)) (r : Z * Dir) :
  forall up dss i c w log,
    (c + length (reqs ++ [r]) = length dss)%nat ->
    push_starts (reqs ++ [r]) (mkState (mkSplitStage up dss i c) w log)
    = Returned (tt,
        mkState (mkSplitStage up dss (collect c i (map fst (reqs ++ [r]))) 0)
                (ext_PushStartUp up (offset (collect c i (map fst (reqs ++ [r])))) (snd r) w)
                (log ++ [CallPushStartUp up (offset (collect c i (map fst (reqs ++ [r])))) (snd r)])).
Proof.
  intros up dss i c w log Hlen. rewrite length_app in Hlen. cbn [length] in Hlen.
  unfold push_starts. rewrite for_each_app. unfold bind.
  fold (push_starts reqs). rewrite push_starts_below by lia.
  cbn [for_each]. unfold bind. rewrite run_PushStartUp.
  destruct (Nat.eqb_spec (S (c + length reqs)) (length dss)) as [E|NE]; [|lia].
  cbn [ret]. rewrite map_app, collect_app, length_map. reflexivity.
Qed.

End ClosedForms.

(** ** Determinism of the node *)

Section NodeLocal.

Context {W : Type} {SW : StageWorld W}.

Lemma node_local_ret {A} (a : A) : node_local (ret (W := W) a).
Proof. intros st st' E. cbn. auto. Qed.

Lemma node_local_bind {A B} (m : M W A) (k : A -> M W B) :
  node_local m -> (forall a, node_local (k a)) -> node_local (bind m k).
Proof.
  intros Hm Hk st st' E. unfold bind.
  specialize (Hm st st' E). unfold agree in Hm.
  destruct (m st) as [[a s1]|], (m st') as [[a' s1']|]; try contradiction.
  - destruct Hm as [<- E1]. now apply Hk.
  - exact I.
Qed.

Lemma node_local_for_each {A} (l : list A) (body : A -> M W unit) :
  (forall a, node_local (body a)) -> node_local (for_each l body).
Proof.
  intros Hb. induction l as [|a l IH]; cbn [for_each].
  - apply node_local_ret.
  - apply node_local_bind; auto.
Qed.

Lemma node_local_PushStartUp (s : Z) (dir : Dir) : node_local (PushStartUp s dir).
Proof.
  intros [[up dss i c] w log] [s' w' log']. cbn [self]. intros <-.
  rewrite !run_PushStartUp.
  destruct (Nat.eqb (S c) (length dss)); cbn; auto.
Qed.

Lemma node_local_PushCropDown (J : Interval) (dir : Dir) : node_local (PushCropDown J dir).
Proof.
  intros [[up dss i c] w log] [s' w' log']. cbn [self]. intros <-.
  rewrite !run_PushCropDown.
  destruct (Interval_gt J i); cbn; auto.
Qed.

Lemma first_answers_fixed (ds : list StageId) (e : Z) (dir : Dir) :
  fixed_answers -> forall w w', first_answers ds e dir w = first_answers ds e dir w'.
Proof.
  intros Hfix. unfold first_answers.
  induction ds as [|d ds IH]; intros w w'; cbn [probe_all]; [reflexivity|].
  pose proof (Hfix d e dir w w') as Hd.
  destruct (ext_PushEndDown d e dir w) as [r w1].
  destruct (ext_PushEndDown d e dir w') as [r' w1']. cbn [fst] in Hd. subst r'.
  specialize (IH w1 w1').
  destruct (probe_all ds e dir w1) as [rs w2].
  destruct (probe_all ds e dir w1') as [rs' w2']. cbn [fst] in *. now subst.
Qed.

Lemma node_local_PushEndDown (e : Z) (dir : Dir) :
  fixed_answers -> node_local (PushEndDown e dir).
Proof.
  intros Hfix [[up dss [o en] c] w log] [s' w' log']. cbn [self]. intros <-.
  rewrite !run_PushEndDown.
  rewrite (first_answers_fixed dss e dir Hfix w w'). cbn. auto.
Qed.

(** After [Reset] only the topology of the node matters. *)
Lemma negotiate_agrees (reqs : list (Z * Dir)) (e : Z) (J : Interval) (dir : Dir)
    (st st' : State W) :
  fixed_answers ->
  upstream_ (self st) = upstream_ (self st') ->
  downstream_ (self st) = downstream_ (self st') ->
  agree (negotiate reqs e J dir st) (negotiate reqs e J dir st').
Proof.
  intros Hfix Hup Hds.
  destruct st as [s w log], st' as [s' w' log']. cbn [self] in Hup, Hds.
  assert (Hloc : node_local
            (push_starts reqs ;; _ <- PushEndDown e dir ;; PushCropDown J dir)).
  { apply node_local_bind.
    - apply node_local_for_each. intros a. apply node_local_PushStartUp.
    - intros _. apply node_local_bind.
      + now apply node_local_PushEndDown.
      + intros _. apply node_local_PushCropDown. }
  change (negotiate reqs e J dir (mkState s w log))
    with ((push_starts reqs ;; _ <- PushEndDown e dir ;; PushCropDown J dir)
            (mkState (mkSplitStage (upstream_ s) (downstream_ s) (Interval2 0 0) 0) w log)).
  change (negotiate reqs e J dir (mkState s' w' log'))
    with ((push_starts reqs ;; _ <- PushEndDown e dir ;; PushCropDown J dir)
            (mkState (mkSplitStage (upstream_ s') (downstream_ s') (Interval2 0 0) 0) w' log')).
  apply Hloc. cbn [self]. now rewrite Hup, Hds.
Qed.

End NodeLocal.

(** ** The graph links are a frame of the negotiation *)

Create HintDb topology.

Section Topology.

Context {W : Type} {SW : StageWorld W}.

Lemma keeps_topology_ret {A} (a : A) : keeps_topology (ret (W := W) a).
Proof. intros st a' st' [= _ <-]. auto. Qed.

Lemma keeps_topology_bind {A B} (m : M W A) (k : A -> M W B) :
  keeps_topology m -> (forall a, keeps_topology (k a)) -> keeps_topology (bind m k).
Proof.
  intros Hm Hk st b st'. unfold bind.
  destruct (m st) as [[a s1]|] eqn:E; [|discriminate].
  intros Ek. destruct (Hm _ _ _ E) as [U D], (Hk _ _ _ _ Ek) as [U' D'].
  split; congruence.
Qed.

Lemma keeps_topology_if {A} (b : bool) (m1 m2 : M W A) :
  keeps_topology m1 -> keeps_topology m2 -> keeps_topology (if b then m1 else m2).
Proof. now destruct b. Qed.

Lemma keeps_topology_for_each {A} (l : list A) (body : A -> M W unit) :
  (forall a, keeps_topology (body a)) -> keeps_topology (for_each l body).
Proof.
  intros Hb. induction l as [|a l IH]; cbn [for_each].
  - apply keeps_topology_ret.
  - apply keeps_topology_bind; auto.
Qed.

Lemma keeps_topology_assert (b : bool) : keeps_topology (assert_ (W := W) b).
Proof. intros st a st'. unfold assert_. destruct b; [intros [= _ <-]; auto | discriminate]. Qed.

Lemma keeps_topology_get_upstream : keeps_topology (get_upstream (W := W)).
Proof. intros st a st' [= _ <-]. auto. Qed.

Lemma keeps_topology_get_downstream : keeps_topology (get_downstream (W := W)).
Proof. intros st a st' [= _ <-]. auto. Qed.

Lemma keeps_topology_get_input_interval : keeps_topology (get_input_interval (W := W)).
Proof. intros st a st' [= _ <-]. auto. Qed.

Lemma keeps_topology_get_count : keeps_topology (get_count (W := W)).
Proof. intros st a st' [= _ <-]. auto. Qed.

Lemma keeps_topology_set_input_interval (i : Interval) :
  keeps_topology (set_input_interval (W := W) i).
Proof. intros st a st' [= _ <-]. auto. Qed.

Lemma keeps_topology_set_count (c : nat) : keeps_topology (set_count (W := W) c).
Proof. intros st a st' [= _ <-]. auto. Qed.

Lemma keeps_topology_call_PushStartUp (u : StageId) (s : Z) (dir : Dir) :
  keeps_topology (call_PushStartUp u s dir).
Proof. intros st a st' [= _ <-]. auto. Qed.

Lemma keeps_topology_call_PushEndDown (d : StageId) (e : Z) (dir : Dir) :
  keeps_topology (call_PushEndDown d e dir).
Proof.
  intros st a st'. unfold call_PushEndDown.
  destruct (ext_PushEndDown d e dir (world st)). intros [= _ <-]. auto.
Qed.

Lemma keeps_topology_call_PushCropDown (d : StageId) (iv : Interval) (dir : Dir) :
  keeps_topology (call_PushCropDown d iv dir).
Proof. intros st a st' [= _ <-]. auto. Qed.

End Topology.

#[global] Hint Resolve keeps_topology_ret keeps_topology_bind keeps_topology_if
  keeps_topology_for_each keeps_topology_assert keeps_topology_get_upstream
  keeps_topology_get_downstream keeps_topology_get_input_interval
  keeps_topology_get_count keeps_topology_set_input_interval
  keeps_topology_set_count keeps_topology_call_PushStartUp
  keeps_topology_call_PushEndDown keeps_topology_call_PushCropDown : topology.

Ltac frame_topology :=
  repeat match goal with
         | |- keeps_topology (bind _ _) => apply keeps_topology_bind
         | |- keeps_topology (if _ then _ else _) => apply keeps_topology_if
         | |- keeps_topology (for_each _ _) => apply keeps_topology_for_each
         | |- forall _, keeps_topology _ => intro; cbv beta
         end;
  auto with topology.

Section TopologyOfMethods.

Context {W : Type} {SW : StageWorld W}.

Lemma keeps_topology_Reset : keeps_topology (Reset (W := W)).
Proof. unfold Reset. frame_topology. Qed.

Lemma keeps_topology_PushStartUp (s : Z) (dir : Dir) : keeps_topology (PushStartUp s dir).
Proof. unfold PushStartUp. frame_topology. Qed.

Lemma keeps_topology_PushEndUp (e : Z) (dir : Dir) :
  keeps_topology (PushEndUp (W := W) e dir).
Proof. unfold PushEndUp. frame_topology. Qed.

Lemma keeps_topology_PushEndDown (e : Z) (dir : Dir) : keeps_topology (PushEndDown e dir).
Proof.
  unfold PushEndDown, probe_branch, inform_branch.
  pose proof keeps_topology_PushEndUp. frame_topology.
Qed.

Lemma keeps_topology_PushCropDown (J : Interval) (dir : Dir) :
  keeps_topology (PushCropDown J dir).
Proof. unfold PushCropDown. frame_topology. Qed.

Lemma keeps_topology_push_starts (reqs : list (Z * Dir)) :
  keeps_topology (push_starts reqs).
Proof.
  unfold push_starts. apply keeps_topology_for_each.
  intros r. apply keeps_topology_PushStartUp.
Qed.

Lemma keeps_topology_negotiate (reqs : list (Z * Dir)) (e : Z) (J : Interval) (dir : Dir) :
  keeps_topology (negotiate reqs e J dir).
Proof.
  unfold negotiate.
  pose proof keeps_topology_Reset. pose proof keeps_topology_push_starts.
  pose proof keeps_topology_PushEndDown. pose proof keeps_topology_PushCropDown.
  frame_topology.
Qed.

Lemma exec_op_topology (o : Op) (st st' : State W) :
  exec_op o st = Returned (tt, st') ->
  upstream_ (self st') = upstream_ (self st) /\
  downstream_ (self st') = downstream_ (self st) ++ registered [o].
Proof.
  destruct o; cbn [exec_op registered]; intros E.
  - destruct st as [s w log]. rewrite run_SetDownstream in E.
    injection E as <-. cbn. auto.
  - rewrite app_nil_r. eapply keeps_topology_Reset, E.
  - rewrite app_nil_r. eapply keeps_topology_PushStartUp, E.
  - rewrite app_nil_r.
    assert (K : keeps_topology (_ <- PushEndDown input_end dir ;; ret tt)).
    { pose proof keeps_topology_PushEndDown. frame_topology. }
    eapply K, E.
  - rewrite app_nil_r. eapply keeps_topology_PushEndUp, E.
  - rewrite app_nil_r. eapply keeps_topology_PushCropDown, E.
Qed.

Lemma registered_app (ops1 ops2 : list Op) :
  registered (ops1 ++ ops2) = registered ops1 ++ registered ops2.
Proof.
  induction ops1 as [|o ops1 IH]; cbn [app registered]; [reflexivity|].
  destruct o; cbn [app]; now rewrite IH.
Qed.

Lemma exec_ops_topology (ops : list Op) :
  forall st st',
    exec_ops ops st = Returned (tt, st') ->
    upstream_ (self st') = upstream_ (self st) /\
    downstream_ (self st') = downstream_ (self st) ++ registered ops.
Proof.
  unfold exec_ops. induction ops as [|o ops IH]; intros st st'; cbn [for_each].
  - intros [= <-]. cbn. now rewrite app_nil_r.
  - unfold bind. destruct (exec_op o st) as [[[] s1]|] eqn:E; [|discriminate].
    intros E'. destruct (exec_op_topology _ _ _ E) as [U D], (IH _ _ E') as [U' D'].
    split; [congruence|].
    rewrite D', D. change (o :: ops) with ([o] ++ ops).
    now rewrite registered_app, app_assoc.
Qed.

End TopologyOfMethods.

(** * Main results *)

Section MainResults.

Context {W : Type} {SW : StageWorld W}.

(** C8.  In any state, [Reset] returns, and afterwards the interval of the
    node is [(0,0)] and its barrier counter is zero; nothing else of the
    node, of the graph or of the call log has changed. *)
Theorem Reset_clears_interval_and_count (st : State W) :
  exists st',
    Reset st = Returned (tt, st') /\
    input_interval_ (self st') = Interval2 0 0 /\
    offset (input_interval_ (self st')) = 0 /\
    End_ (input_interval_ (self st')) = 0 /\
    count_ (self st') = 0%nat /\
    upstream_ (self st') = upstream_ (self st) /\
    downstream_ (self st') = downstream_ (self st) /\
    world st' = world st /\
    calls st' = calls st.
Proof.
  destruct st as [s w log]. rewrite run_Reset.
  eexists. split; [reflexivity|].
  cbn. repeat split.
Qed.

(** C5.  A node with [n] branches whose counter is zero (after [Reset], or
    after its last forward) and that receives fewer than [n] [PushStartUp]
    calls makes no call at all: the call log and the rest of the graph are
    untouched, and the counter holds the number of calls received. *)
Theorem no_forward_before_all_branches (st : State W) (reqs : list (Z * Dir)) :
  count_ (self st) = 0%nat ->
  (length reqs < length (downstream_ (self st)))%nat ->
  exists st',
    push_starts reqs st = Returned (tt, st') /\
    calls st' = calls st /\
    world st' = world st /\
    starts_forwarded (upstream_ (self st)) (calls st')
      = starts_forwarded (upstream_ (self st)) (calls st) /\
    count_ (self st') = length reqs.
Proof.
  destruct st as [[up dss i c] w log]. cbn [self count_ downstream_ upstream_ calls world].
  intros -> Hlt.
  rewrite push_starts_below by (cbn; lia).
  eexists. split; [reflexivity|]. cbn. auto.
Qed.

(** C1.  A node with [n >= 1] branches whose counter is zero receives [n]
    calls of [PushStartUp].  Whatever the order in which the starts
    arrive, the run makes exactly one call, [PushStartUp] on the upstream
    neighbour with the least of the starts, and leaves the counter at
    zero. *)
Theorem leftmost_start_forwarded_once (st : State W) (reqs : list (Z * Dir)) :
  count_ (self st) = 0%nat ->
  (1 <= length (downstream_ (self st)))%nat ->
  length reqs = length (downstream_ (self st)) ->
  exists m,
    list_min (map fst reqs) = Some m /\
    forall reqs',
      Permutation (map fst reqs') (map fst reqs) ->
      exists st',
        push_starts reqs' st = Returned (tt, st') /\
        calls st' = calls st
                    ++ [CallPushStartUp (upstream_ (self st)) m (snd (last reqs' (0, DirX)))] /\
        starts_forwarded (upstream_ (self st)) (calls st')
          = starts_forwarded (upstream_ (self st)) (calls st) ++ [m] /\
        world st' = ext_PushStartUp (upstream_ (self st)) m
                      (snd (last reqs' (0, DirX))) (world st) /\
        offset (input_interval_ (self st')) = m /\
        count_ (self st') = 0%nat.
Proof.
  destruct st as [[up dss i c] w log]. cbn [self count_ downstream_ upstream_ calls world].
  intros -> Hn Hlen.
  destruct reqs as [|[s0 d0] reqs]; [cbn in Hlen; lia|].
  cbn [map fst list_min]. eexists. split; [reflexivity|].
  intros reqs' P.
  assert (Hlen' : length reqs' = length dss).
  { apply Permutation_length in P. rewrite length_map in P. cbn in P.
    rewrite length_map in P. cbn in Hlen. lia. }
  destruct (exists_last (l := reqs')) as [front [r E]].
  { intros ->. cbn in Hlen'. lia. }
  subst reqs'. rewrite last_last.
  rewrite push_starts_exact by (cbn; lia).
  assert (Hm : offset (collect 0 i (map fst (front ++ [r]))) = min_with s0 (map fst reqs)).
  { destruct (map fst (front ++ [r])) as [|s ss] eqn:Es.
    - apply Permutation_nil in P. discriminate.
    - rewrite offset_collect_first. now apply min_with_perm. }
  rewrite Hm. eexists. split; [reflexivity|].
  cbn [self calls world input_interval_ count_].
  rewrite starts_forwarded_app. cbn [starts_forwarded]. rewrite Nat.eqb_refl.
  auto.
Qed.

(** C10.  [PushEndDown e] always returns, and the value it returns is at
    most [e], whatever the branches answer. *)
Theorem PushEndDown_never_exceeds_input (st : State W) (e : Z) (dir : Dir) :
  exists f st',
    PushEndDown e dir st = Returned (f, st') /\
    f <= e /\
    End_ (input_interval_ (self st')) = f.
Proof.
  destruct st as [[up dss [o en] c] w log]. rewrite run_PushEndDown.
  do 2 eexists. split; [reflexivity|]. split.
  - apply min_with_le_init.
  - reflexivity.
Qed.

(** C2, as the code has it.  [PushEndDown e] returns, records and
    broadcasts [min(e, a1, ..., an)], where [ai] is the answer of branch
    [i] to its first probe with [e]; it is at most every such answer, it
    is one of them unless it is [e] itself, and it is the least of the
    answers alone as soon as one of them is at most [e]. *)
Theorem final_end_is_min_of_input_and_answers (st : State W) (e : Z) (dir : Dir) :
  let answers := first_answers (downstream_ (self st)) e dir (world st) in
  exists st',
    PushEndDown e dir st = Returned (min_with e answers, st') /\
    End_ (input_interval_ (self st')) = min_with e answers /\
    calls st' = calls st
                ++ map (fun d => CallPushEndDown d e dir) (downstream_ (self st))
                ++ map (fun d => CallPushEndDown d (min_with e answers) dir)
                       (downstream_ (self st)) /\
    list_min (e :: answers) = Some (min_with e answers) /\
    (forall a, In a answers -> min_with e answers <= a) /\
    (min_with e answers = e \/ In (min_with e answers) answers) /\
    ((exists a, In a answers /\ a <= e) ->
       list_min answers = Some (min_with e answers)).
Proof.
  destruct st as [[up dss [o en] c] w log]. cbn [self downstream_ world calls].
  cbv zeta. rewrite run_PushEndDown.
  set (answers := first_answers dss e dir w).
  eexists. split; [reflexivity|]. cbn [self input_interval_ End_ end_ calls].
  split; [reflexivity|]. split; [reflexivity|]. split; [reflexivity|].
  split; [|split].
  - intros a Ha. now apply min_with_le_elem.
  - apply min_with_attained.
  - apply min_with_drop_init.
Qed.

(** C4.  During one call of [PushEndDown e] the node makes [2n] calls, all
    of them [PushEndDown] calls on branches: one probe per branch carrying
    [e], in branch order, and then one call per branch carrying the final
    end [f], in branch order again.  So a stage registered [k] times is
    given [e] [k] times and then [f] [k] times ([k = 1]: exactly [e], then
    [f]); the last end every branch was given is the final one. *)
Theorem every_branch_probed_then_informed (st : State W) (e : Z) (dir : Dir) :
  exists f st',
    PushEndDown e dir st = Returned (f, st') /\
    End_ (input_interval_ (self st')) = f /\
    calls st' = calls st
                ++ map (fun d => CallPushEndDown d e dir) (downstream_ (self st))
                ++ map (fun d => CallPushEndDown d f dir) (downstream_ (self st)) /\
    (forall d,
        ends_given d (calls st')
        = ends_given d (calls st)
          ++ repeat e (count_occ Nat.eq_dec (downstream_ (self st)) d)
          ++ repeat f (count_occ Nat.eq_dec (downstream_ (self st)) d)) /\
    (forall d, In d (downstream_ (self st)) ->
        last (ends_given d (calls st')) e = f) /\
    world st' = inform_all (downstream_ (self st)) f dir
                  (snd (probe_all (downstream_ (self st)) e dir (world st))).
Proof.
  destruct st as [[up dss [o en] c] w log]. rewrite run_PushEndDown.
  cbn [self downstream_ world calls input_interval_ End_ end_].
  set (f := min_with e (first_answers dss e dir w)).
  exists f. eexists. split; [reflexivity|].
  cbn [self downstream_ world calls input_interval_ End_ end_].
  assert (Hgiven : forall d,
    ends_given d (log ++ map (fun t => CallPushEndDown t e dir) dss
                      ++ map (fun t => CallPushEndDown t f dir) dss)
    = ends_given d log ++ repeat e (count_occ Nat.eq_dec dss d)
        ++ repeat f (count_occ Nat.eq_dec dss d)).
  { intros d. now rewrite !ends_given_app, !ends_given_round. }
  repeat split; try assumption.
  intros d Hin. rewrite Hgiven.
  apply (count_occ_In Nat.eq_dec) in Hin.
  destruct (count_occ Nat.eq_dec dss d) as [|k]; [lia|].
  rewrite !app_assoc. rewrite <- Nat.add_1_r at 2. rewrite repeat_app.
  cbn [repeat]. rewrite app_assoc. apply last_last.
Qed.

(** C3.  [PushCropDown J] returns exactly when [J] extends the recorded
    interval [I] ([J.start <= I.start] and [J.end >= I.end]) and stops on
    the failed assertion otherwise, in particular when [J] is strictly
    narrower than [I]; and [PushCropDown [4,80)] followed by
    [PushCropDown [10,70)] fails the assertion from every state. *)
Theorem crop_succeeds_iff_extends (st : State W) (J : Interval) (dir : Dir) :
  let I := input_interval_ (self st) in
  ((exists st', PushCropDown J dir st = Returned (tt, st'))
     <-> (offset J <= offset I /\ End_ I <= End_ J)) /\
  (PushCropDown J dir st = AssertionFailed
     <-> ~ (offset J <= offset I /\ End_ I <= End_ J)) /\
  (offset I <= offset J /\ End_ J <= End_ I /\ J <> I ->
     PushCropDown J dir st = AssertionFailed) /\
  (forall dir', (PushCropDown (Interval2 4 80) dir ;; PushCropDown (Interval2 10 70) dir') st
                = AssertionFailed).
Proof.
  destruct st as [[up dss I c] w log].
  cbv zeta. cbn [self input_interval_].
  pose proof (Interval_gt_spec J I) as Hgt.
  rewrite run_PushCropDown.
  split; [|split; [|split]].
  - split.
    + intros [st' E]. apply Hgt.
      destruct (Interval_gt J I); [reflexivity | discriminate].
    + intros Hext. apply Hgt in Hext. rewrite Hext. eexists. reflexivity.
  - split.
    + intros E Hext. apply Hgt in Hext. rewrite Hext in E. discriminate.
    + intros Hn. destruct (Interval_gt J I); [|reflexivity].
      exfalso. apply Hn, Hgt. reflexivity.
  - intros (Ho & He & Hne).
    destruct (Interval_gt J I); [|reflexivity].
    destruct Hgt as [Hgt _]. specialize (Hgt eq_refl).
    exfalso. apply Hne. destruct J, I. unfold End_ in *. cbn in *. f_equal; lia.
  - intros dir'. unfold bind. rewrite run_PushCropDown.
    destruct (Interval_gt (Interval2 4 80) I); [|reflexivity].
    rewrite run_PushCropDown. reflexivity.
Qed.

(** C6.  When [J] extends the recorded interval, [PushCropDown J] returns
    after recording [J] as the interval of the node and making exactly one
    call per branch, in branch order: [PushCropDown] with [J] itself. *)
Theorem crop_recorded_and_fanned_out (st : State W) (J : Interval) (dir : Dir) :
  Interval_gt J (input_interval_ (self st)) = true ->
  exists st',
    PushCropDown J dir st = Returned (tt, st') /\
    input_interval_ (self st') = J /\
    calls st' = calls st
                ++ map (fun d => CallPushCropDown d J dir) (downstream_ (self st)) /\
    world st' = crop_all (downstream_ (self st)) J dir (world st) /\
    count_ (self st') = count_ (self st).
Proof.
  destruct st as [[up dss i c] w log].
  cbn [self input_interval_ downstream_ world calls count_].
  intros Hext. rewrite run_PushCropDown, Hext.
  eexists. split; [reflexivity|]. cbn. auto.
Qed.

(** C7.  With branches of fixed behaviour, a negotiation that has run to
    its end can be run again with the same inputs: the second run resets
    the node, returns as well, and leaves the node with the same interval
    (indeed with the same members) as the first. *)
Theorem renegotiation_gives_same_interval (st st1 : State W)
    (reqs : list (Z * Dir)) (e : Z) (J : Interval) (dir : Dir) :
  fixed_answers ->
  negotiate reqs e J dir st = Returned (tt, st1) ->
  exists st2,
    negotiate reqs e J dir st1 = Returned (tt, st2) /\
    input_interval_ (self st2) = input_interval_ (self st1) /\
    self st2 = self st1.
Proof.
  intros Hfix E1.
  destruct (keeps_topology_negotiate reqs e J dir _ _ _ E1) as [U D].
  pose proof (negotiate_agrees reqs e J dir st st1 Hfix (eq_sym U) (eq_sym D)) as A.
  rewrite E1 in A. unfold agree in A.
  destruct (negotiate reqs e J dir st1) as [[[] st2]|]; [|contradiction].
  destruct A as [_ Es]. exists st2. split; [reflexivity|].
  split; [now rewrite <- Es | now symmetry].
Qed.

(** C9.  [Reset], [PushStartUp], [PushEndDown], [PushEndUp] and
    [PushCropDown] leave [upstream_] and [downstream_] as they were;
    [SetDownstream] appends its argument to [downstream_]; hence after any
    sequence of operations [downstream_] is what it was, followed by the
    stages registered, in registration order.  The constructor sets
    [upstream_], starts with no branch and registers the node with its
    upstream neighbour, so that the branch with index [k] of a node is the
    [k]-th stage registered with it. *)
Theorem topology_changed_only_by_SetDownstream :
  keeps_topology (Reset (W := W)) /\
  (forall s dir, keeps_topology (PushStartUp s dir)) /\
  (forall e dir, keeps_topology (PushEndDown e dir)) /\
  (forall e dir, keeps_topology (PushEndUp (W := W) e dir)) /\
  (forall J dir, keeps_topology (PushCropDown J dir)) /\
  (forall d (st : State W), exists st',
      SetDownstream d st = Returned (tt, st') /\
      upstream_ (self st') = upstream_ (self st) /\
      downstream_ (self st') = downstream_ (self st) ++ [d]) /\
  (forall ops (st st' : State W),
      exec_ops ops st = Returned (tt, st') ->
      upstream_ (self st') = upstream_ (self st) /\
      downstream_ (self st') = downstream_ (self st) ++ registered ops) /\
  (forall this upstream i0 c0 (w : W) log, exists st0,
      SplitStage_new this upstream i0 c0 w log = Returned (tt, st0) /\
      upstream_ (self st0) = upstream /\
      downstream_ (self st0) = [] /\
      calls st0 = log ++ [CallSetDownstream upstream this] /\
      forall ops st',
        exec_ops ops st0 = Returned (tt, st') ->
        upstream_ (self st') = upstream /\
        forall k, nth_error (downstream_ (self st')) k = nth_error (registered ops) k).
Proof.
  split; [apply keeps_topology_Reset|].
  split; [apply keeps_topology_PushStartUp|].
  split; [apply keeps_topology_PushEndDown|].
  split; [apply keeps_topology_PushEndUp|].
  split; [apply keeps_topology_PushCropDown|].
  split; [|split].
  - intros d [s w log]. rewrite run_SetDownstream.
    eexists. split; [reflexivity|]. cbn. auto.
  - intros ops st st'. apply exec_ops_topology.
  - intros this upstream i0 c0 w log. eexists. split; [reflexivity|].
    cbn [self upstream_ downstream_ calls].
    split; [reflexivity|]. split; [reflexivity|]. split; [reflexivity|].
    intros ops st' E. apply exec_ops_topology in E.
    cbn [self upstream_ downstream_ app] in E. destruct E as [U D].
    split; [exact U|]. intros k. now rewrite D.
Qed.

End MainResults.

(** * The scenarios of the specification, run *)

Lemma answering_fixed (ans : StageId -> Z -> Z) :
  fixed_answers (SW := answering ans).
Proof. intros d e dir w w'. reflexivity. Qed.

(** Scenario A: two branches, starts 10 and 4: upstream is asked for 4. *)
Example scenario_A :
  option_map calls
    (final_state (push_starts (SW := capped scenario_caps)
                    [(10, DirX); (4, DirX)] (fresh_node [1; 2]%nat)))
  = Some [CallPushStartUp 0 4 DirX].
Proof. reflexivity. Qed.

(** Scenario B: the input end is 100, branch 1 takes up to 80, branch 2 up
    to 95: both are probed with 100, then both are told 80, and 80 is
    returned. *)
Example scenario_B :
  PushEndDown (SW := capped scenario_caps) 100 DirX (fresh_node [1; 2]%nat)
  = Returned (80,
      mkState (mkSplitStage 0 [1; 2]%nat (Interval2 0 80) 0)
              (mkNotes [(2%nat, 80); (1%nat, 80); (2%nat, 100); (1%nat, 100)] [])
              [CallPushEndDown 1 100 DirX; CallPushEndDown 2 100 DirX;
               CallPushEndDown 1 80 DirX; CallPushEndDown 2 80 DirX]).
Proof. reflexivity. Qed.

(** Scenario C, from a node that holds [[4,80)] after its first crop. *)
Example scenario_C :
  (PushCropDown (SW := capped scenario_caps) (Interval2 4 80) DirX ;;
   PushCropDown (SW := capped scenario_caps) (Interval2 10 70) DirX)
    (mkState (mkSplitStage 0 [1; 2]%nat (Interval2 4 80) 0) no_notes [])
  = AssertionFailed.
Proof. reflexivity. Qed.

(** Scenario D: three branches, two calls: nothing is forwarded. *)
Example scenario_D :
  option_map calls
    (final_state (push_starts (SW := capped scenario_caps)
                    [(10, DirX); (4, DirX)] (fresh_node [1; 2; 3]%nat)))
  = Some [].
Proof. reflexivity. Qed.

(** C2 as stated fails.  A single branch that answers 105 to a probe with
    100 leaves the final end at 100, not at the least answer 105; and a
    node without branches returns 100 although there is no answer to take
    a minimum of. *)
Lemma final_end_is_not_min_of_answers :
  (returned_value (PushEndDown (SW := greedy) 100 DirX (fresh_node [1%nat])) = Some 100
   /\ list_min (first_answers (SW := greedy) [1%nat] 100 DirX no_notes) = Some 105
   /\ returned_value (PushEndDown (SW := greedy) 100 DirX (fresh_node [1%nat]))
      <> list_min (first_answers (SW := greedy) [1%nat] 100 DirX no_notes))
  /\
  (returned_value (PushEndDown (SW := greedy) 100 DirX (fresh_node [])) = Some 100
   /\ list_min (first_answers (SW := greedy) [] 100 DirX no_notes) = None).
Proof.
  split; [split; [reflexivity | split; [reflexivity | discriminate]]|].
  split; reflexivity.
Qed.

(** Scenario A through the theorem of C1. *)
Lemma leftmost_start_forwarded_once_witness :
  exists st',
    push_starts (SW := capped scenario_caps) [(4, DirX); (10, DirX)] (fresh_node [1; 2]%nat)
    = Returned (tt, st') /\
    calls st' = [CallPushStartUp 0 4 DirX].
Proof.
  destruct (leftmost_start_forwarded_once (SW := capped scenario_caps)
              (fresh_node [1; 2]%nat) [(10, DirX); (4, DirX)]
              eq_refl (le_S _ _ (le_n 1)) eq_refl) as [m [Hm Hall]].
  injection Hm as <-.
  destruct (Hall [(4, DirX); (10, DirX)] (perm_swap 10 4 [])) as [st' [E [Hc _]]].
  exists st'. split; [exact E | exact Hc].
Defined.

(** Scenario D through the theorem of C5. *)
Lemma no_forward_before_all_branches_witness :
  exists st',
    push_starts (SW := capped scenario_caps) [(10, DirX); (4, DirX)] (fresh_node [1; 2; 3]%nat)
    = Returned (tt, st') /\
    calls st' = [] /\
    count_ (self st') = 2%nat.
Proof.
  destruct (no_forward_before_all_branches (SW := capped scenario_caps)
              (fresh_node [1; 2; 3]%nat) [(10, DirX); (4, DirX)]
              eq_refl (le_n 3)) as [st' [E [Hc [_ [_ Hn]]]]].
  exists st'. split; [exact E | split; [exact Hc | exact Hn]].
Defined.

(** A crop to [[4,80)] of a node that holds [[4,80)], through the theorem
    of C6. *)
Lemma crop_recorded_and_fanned_out_witness :
  exists st',
    PushCropDown (SW := capped scenario_caps) (Interval2 4 80) DirY
      (mkState (mkSplitStage 0 [1; 2]%nat (Interval2 4 80) 0) no_notes [])
    = Returned (tt, st') /\
    input_interval_ (self st') = Interval2 4 80 /\
    calls st' = [CallPushCropDown 1 (Interval2 4 80) DirY;
                 CallPushCropDown 2 (Interval2 4 80) DirY].
Proof.
  destruct (crop_recorded_and_fanned_out (SW := capped scenario_caps)
              (mkState (mkSplitStage 0 [1; 2]%nat (Interval2 4 80) 0) no_notes [])
              (Interval2 4 80) DirY eq_refl) as [st' [E [Hi [Hc _]]]].
  exists st'. split; [exact E | split; [exact Hi | exact Hc]].
Defined.

(** Scenarios A and B followed by the crop to [[4,80)], run twice,
    through the theorem of C7. *)
Lemma renegotiation_gives_same_interval_witness :
  exists st1 st2,
    negotiate (SW := capped scenario_caps) [(10, DirX); (4, DirX)] 100 (Interval2 4 80) DirX
      (fresh_node [1; 2]%nat) = Returned (tt, st1) /\
    negotiate (SW := capped scenario_caps) [(10, DirX); (4, DirX)] 100 (Interval2 4 80) DirX
      st1 = Returned (tt, st2) /\
    input_interval_ (self st1) = Interval2 4 80 /\
    input_interval_ (self st2) = Interval2 4 80.
Proof.
  destruct (negotiate (SW := capped scenario_caps) [(10, DirX); (4, DirX)] 100
              (Interval2 4 80) DirX (fresh_node [1; 2]%nat))
    as [[[] st1]|] eqn:E1; [|vm_compute in E1; discriminate].
  destruct (renegotiation_gives_same_interval (SW := capped scenario_caps)
              (fresh_node [1; 2]%nat) st1 [(10, DirX); (4, DirX)] 100 (Interval2 4 80) DirX
              (answering_fixed _) E1) as [st2 [E2 [Hi _]]].
  assert (H1 : input_interval_ (self st1) = Interval2 4 80).
  { vm_compute in E1. injection E1 as <-. reflexivity. }
  exists st1, st2. split; [reflexivity|]. split; [exact E2|].
  split; [exact H1 | rewrite Hi; exact H1].
Defined.

(** * Further properties of the fan-out node *)

Section FurtherSplitStage.

Context {W : Type} {SW : StageWorld W}.

Lemma run_full_round (round : list (Z * Dir)) :
  forall up dss i w log,
    (1 <= length dss)%nat ->
    length round = length dss ->
    exists i' w',
      push_starts round (mkState (mkSplitStage up dss i 0) w log)
      = Returned (tt, mkState (mkSplitStage up dss i' 0) w' (log ++ round_call up round)).
Proof.
  intros up dss i w log Hn Hlen.
  destruct (exists_last (l := round)) as [front [r E]].
  { intros ->. cbn in Hlen. lia. }
  subst round. rewrite push_starts_exact by (cbn; lia).
  unfold round_call. rewrite last_last.
  destruct (map fst (front ++ [r])) as [|s ss] eqn:Es.
  { destruct front; discriminate. }
  rewrite offset_collect_first. cbn [list_min].
  do 2 eexists. reflexivity.
Qed.

Lemma run_full_rounds (rounds : list (list (Z * Dir))) :
  forall up dss i w log,
    (1 <= length dss)%nat ->
    Forall (fun r => length r = length dss) rounds ->
    exists i' w',
      push_starts (concat rounds) (mkState (mkSplitStage up dss i 0) w log)
      = Returned (tt, mkState (mkSplitStage up dss i' 0) w'
                              (log ++ flat_map (round_call up) rounds)).
Proof.
  induction rounds as [|r rounds IH]; intros up dss i w log Hn Hall.
  - cbn. rewrite app_nil_r. do 2 eexists. reflexivity.
  - inversion Hall as [|? ? Hr Hrest]; subst.
    cbn [concat flat_map]. unfold push_starts. rewrite for_each_app.
    unfold bind. fold (push_starts r).
    destruct (run_full_round r up dss i w log Hn Hr) as (i1 & w1 & ->).
    fold (push_starts (concat rounds)).
    destruct (IH up dss i1 w1 (log ++ round_call up r) Hn Hrest) as (i2 & w2 & ->).
    rewrite <- app_assoc. do 2 eexists. reflexivity.
Qed.

(** X1.  The barrier re-arms itself.  From counter zero, a node with
    [n >= 1] branches that receives any number of full rounds of [n]
    requests followed by fewer than [n] further requests has made exactly
    one call per full round, [PushStartUp] upstream with the least start
    of that round, in round order; its counter holds the number of
    requests of the unfinished round, and its interval starts at the least
    start of the unfinished round when there is one. *)
Theorem barrier_rearms_every_round (st : State W)
    (rounds : list (list (Z * Dir))) (partial : list (Z * Dir)) :
  count_ (self st) = 0%nat ->
  (1 <= length (downstream_ (self st)))%nat ->
  Forall (fun r => length r = length (downstream_ (self st))) rounds ->
  (length partial < length (downstream_ (self st)))%nat ->
  exists st',
    push_starts (concat rounds ++ partial) st = Returned (tt, st') /\
    calls st' = calls st ++ flat_map (round_call (upstream_ (self st))) rounds /\
    length (calls st') = (length (calls st) + length rounds)%nat /\
    count_ (self st') = length partial /\
    (partial <> [] ->
       Some (offset (input_interval_ (self st'))) = list_min (map fst partial)).
Proof.
  destruct st as [[up dss i c] w log].
  cbn [self count_ downstream_ upstream_ calls].
  intros -> Hn Hall Hpart.
  unfold push_starts. rewrite for_each_app. unfold bind.
  fold (push_starts (concat rounds)).
  destruct (run_full_rounds rounds up dss i w log Hn Hall) as (i1 & w1 & ->).
  fold (push_starts partial). rewrite push_starts_below by (cbn; lia).
  eexists. split; [reflexivity|]. cbn [self calls count_ input_interval_].
  split; [reflexivity|]. split; [|split; [reflexivity|]].
  - rewrite length_app. f_equal.
    clear -Hn Hall. induction Hall as [|r rounds Hr _ IH]; [reflexivity|].
    cbn [flat_map]. rewrite length_app, IH. cbn [length]. f_equal.
    unfold round_call. destruct r as [|q r]; [cbn in Hr; lia|]. reflexivity.
  - intros Hne. destruct partial as [|[s d] partial]; [congruence|].
    cbn [map fst list_min]. now rewrite offset_collect_first.
Qed.

(** X2.  [PushEndDown] touches nothing of the node but the end of its
    interval: the start recorded in phase 1, the barrier counter and the
    graph links are as before. *)
Theorem PushEndDown_changes_only_the_end (st : State W) (e : Z) (dir : Dir) :
  exists f st',
    PushEndDown e dir st = Returned (f, st') /\
    self st' = with_input_interval (self st) (SetEnd (input_interval_ (self st)) f) /\
    offset (input_interval_ (self st')) = offset (input_interval_ (self st)) /\
    count_ (self st') = count_ (self st).
Proof.
  destruct st as [[up dss [o en] c] w log]. rewrite run_PushEndDown.
  do 2 eexists. split; [reflexivity|]. cbn. auto.
Qed.

Lemma Interval_gt_trans (K J I : Interval) :
  Interval_gt K J = true -> Interval_gt J I = true -> Interval_gt K I = true.
Proof. rewrite !Interval_gt_spec. lia. Qed.

Lemma last_cons_default {A} (l : list A) :
  forall a d, last (a :: l) d = last l a.
Proof.
  induction l as [|b l IH]; intros a d; [reflexivity|].
  change (last (a :: b :: l) d) with (last (b :: l) d).
  now rewrite (IH b d), (IH b a).
Qed.

Lemma chain_extends_last (Js : list Interval) :
  forall I, chain_extends I Js = true -> Interval_gt (last Js I) I = true.
Proof.
  induction Js as [|J Js IH]; intros I; cbn [chain_extends].
  - intros _. apply Interval_gt_refl.
  - rewrite andb_true_iff. intros [HJ Hrest].
    rewrite last_cons_default.
    eapply Interval_gt_trans; [apply IH, Hrest | exact HJ].
Qed.

Lemma run_push_crops (Js : list Interval) :
  forall up dss I c w log dir,
    push_crops Js dir (mkState (mkSplitStage up dss I c) w log)
    = if chain_extends I Js
      then Returned (tt,
             mkState (mkSplitStage up dss (last Js I) c) (crop_rounds dss Js dir w)
                     (log ++ flat_map (fun J => map (fun d => CallPushCropDown d J dir) dss) Js))
      else AssertionFailed.
Proof.
  unfold push_crops.
  induction Js as [|J Js IH]; intros up dss I c w log dir.
  - cbn. now rewrite app_nil_r.
  - cbn [for_each chain_extends]. unfold bind. rewrite run_PushCropDown.
    destruct (Interval_gt J I); [|reflexivity]. cbn [andb].
    rewrite IH. destruct (chain_extends J Js); [|reflexivity].
    cbn [flat_map crop_rounds]. rewrite <- app_assoc, last_cons_default.
    reflexivity.
Qed.

(** X3.  Crops only grow.  A sequence of [PushCropDown] calls returns
    exactly when every interval extends the one before it (the first one
    the recorded interval) and stops on the assertion otherwise; when it
    returns, the node holds the last interval, which extends the interval
    the node started from, and every crop has gone to every branch, crop by
    crop, in branch order. *)
Theorem crops_return_iff_chain_extends (st : State W) (Js : list Interval) (dir : Dir) :
  ((exists st', push_crops Js dir st = Returned (tt, st'))
     <-> chain_extends (input_interval_ (self st)) Js = true) /\
  (push_crops Js dir st = AssertionFailed
     <-> chain_extends (input_interval_ (self st)) Js = false) /\
  (forall st',
      push_crops Js dir st = Returned (tt, st') ->
      input_interval_ (self st') = last Js (input_interval_ (self st)) /\
      Interval_gt (input_interval_ (self st')) (input_interval_ (self st)) = true /\
      calls st' = calls st
                  ++ flat_map (fun J => map (fun d => CallPushCropDown d J dir)
                                            (downstream_ (self st))) Js).
Proof.
  destruct st as [[up dss I c] w log]. cbn [self input_interval_ downstream_ calls].
  rewrite run_push_crops.
  pose proof (chain_extends_last Js I) as Hlast.
  destruct (chain_extends I Js).
  - split; [|split].
    + split; [reflexivity | intros _; eexists; reflexivity].
    + split; discriminate.
    + intros st' [= <-]. cbn [self input_interval_ calls]. auto.
  - split; [|split].
    + split; [intros [st' E]; discriminate | discriminate].
    + split; reflexivity.
    + discriminate.
Qed.

Lemma exec_op_returns (o : Op) (st : State W) :
  is_crop o = false -> exists st', exec_op o st = Returned (tt, st').
Proof.
  destruct st as [[up dss [io ie] c] w log].
  destruct o; cbn [is_crop exec_op]; intros Hc; try discriminate.
  - rewrite run_SetDownstream. eexists. reflexivity.
  - rewrite run_Reset. eexists. reflexivity.
  - rewrite run_PushStartUp. destruct (Nat.eqb _ _); eexists; reflexivity.
  - unfold bind. rewrite run_PushEndDown. eexists. reflexivity.
  - eexists. reflexivity.
Qed.


Lemma exec_op_count_below (o : Op) (st st' : State W) :
  (count_ (self st) < length (downstream_ (self st)))%nat ->
  exec_op o st = Returned (tt, st') ->
  (count_ (self st') < length (downstream_ (self st')))%nat.
Proof.
  destruct st as [[up dss [io ie] c] w log]. cbn [self count_ downstream_].
  intros Hlt. destruct o; cbn [exec_op].
  - rewrite run_SetDownstream. intros [= <-]. cbn. rewrite length_app. cbn. lia.
  - rewrite run_Reset. intros [= <-]. cbn. lia.
  - intros E. apply PushStartUp_count_below in E; [exact E | exact Hlt].
  - unfold bind. rewrite run_PushEndDown. intros [= <-]. cbn. lia.
  - intros [= <-]. cbn. lia.
  - rewrite run_PushCropDown. destruct (Interval_gt _ _); [|discriminate].
    intros [= <-]. cbn. lia.
Qed.

(** X5.  The barrier counter stays below the number of branches: once
    [count_ < downstream_.size()] holds (as after [Reset] of a node with a
    branch), it holds after every sequence of operations, registrations of
    further branches included. *)
Theorem count_stays_below_branch_count (ops : list Op) (st st' : State W) :
  (count_ (self st) < length (downstream_ (self st)))%nat ->
  exec_ops ops st = Returned (tt, st') ->
  (count_ (self st') < length (downstream_ (self st')))%nat.
Proof.
  unfold exec_ops. revert st.
  induction ops as [|o ops IH]; intros st Hlt; cbn [for_each].
  - intros [= <-]. exact Hlt.
  - unfold bind. destruct (exec_op o st) as [[[] st1]|] eqn:E; [|discriminate].
    apply IH. eapply exec_op_count_below; eauto.
Qed.

(** X6.  A whole negotiation in closed form.  On a node with [n >= 1]
    branches, [Reset], [n] requests with least start [m], [PushEndDown e]
    and [PushCropDown J] return exactly when [J] extends [[m, f)], where
    [f] is the least of [e] and the branches' answers to the probe with
    [e]; the run then makes [1 + 3n] calls: the request for [m] upstream,
    the probes with [e], the final end [f] to every branch, and [J] to
    every branch. *)
Theorem negotiation_returns_iff_crop_covers (st : State W)
    (reqs : list (Z * Dir)) (e : Z) (J : Interval) (dir : Dir) (m : Z) :
  (1 <= length (downstream_ (self st)))%nat ->
  length reqs = length (downstream_ (self st)) ->
  list_min (map fst reqs) = Some m ->
  let up := upstream_ (self st) in
  let ds := downstream_ (self st) in
  let ask := CallPushStartUp up m (snd (last reqs (0, DirX))) in
  let f := min_with e (first_answers ds e dir
                         (ext_PushStartUp up m (snd (last reqs (0, DirX))) (world st))) in
  ((exists st', negotiate reqs e J dir st = Returned (tt, st'))
     <-> (offset J <= m /\ f <= End_ J)) /\
  (negotiate reqs e J dir st = AssertionFailed
     <-> ~ (offset J <= m /\ f <= End_ J)) /\
  (forall st',
      negotiate reqs e J dir st = Returned (tt, st') ->
      input_interval_ (self st') = J /\
      count_ (self st') = 0%nat /\
      calls st' = calls st ++ [ask]
                  ++ map (fun d => CallPushEndDown d e dir) ds
                  ++ map (fun d => CallPushEndDown d f dir) ds
                  ++ map (fun d => CallPushCropDown d J dir) ds).
Proof.
  destruct st as [[up dss i c] w log].
  cbn [self downstream_ upstream_ world calls]. intros Hn Hlen Hm. cbv zeta.
  assert (Hrun : negotiate reqs e J dir (mkState (mkSplitStage up dss i c) w log)
    = (_ <- PushEndDown e dir ;; PushCropDown J dir)
        (mkState (mkSplitStage up dss (collect 0 (Interval2 0 0) (map fst reqs)) 0)
           (ext_PushStartUp up m (snd (last reqs (0, DirX))) w)
           (log ++ [CallPushStartUp up m (snd (last reqs (0, DirX)))]))).
  { unfold negotiate. unfold bind at 1. rewrite run_Reset.
    cbn [upstream_ downstream_]. unfold bind at 1.
    destruct (exists_last (l := reqs)) as [front [r E]].
    { intros ->. cbn in Hlen. lia. }
    subst reqs. rewrite push_starts_exact by (cbn; lia). rewrite last_last.
    destruct (map fst (front ++ [r])) as [|s ss] eqn:Es; [discriminate|].
    rewrite offset_collect_first. cbn [list_min] in Hm. injection Hm as ->.
    reflexivity. }
  rewrite Hrun. clear Hrun.
  assert (Hoff : offset (collect 0 (Interval2 0 0) (map fst reqs)) = m).
  { destruct (map fst reqs) as [|s ss]; [discriminate|].
    rewrite offset_collect_first. cbn [list_min] in Hm. now injection Hm. }
  destruct (collect 0 (Interval2 0 0) (map fst reqs)) as [o en].
  cbn [offset] in Hoff. subst o.
  unfold bind. rewrite run_PushEndDown, run_PushCropDown.
  set (w1 := ext_PushStartUp up m (snd (last reqs (0, DirX))) w).
  set (f := min_with e (first_answers dss e dir w1)).
  pose proof (Interval_gt_spec J (mkInterval m f)) as Hgt.
  cbn [offset End_ end_] in Hgt. unfold End_.
  destruct (Interval_gt J (mkInterval m f)).
  - assert (Hext : offset J <= m /\ f <= end_ J) by (apply Hgt; reflexivity).
    split; [|split].
    + split; [intros _; exact Hext | intros _; eexists; reflexivity].
    + split; [discriminate | intros Hn'; contradiction].
    + intros st' [= <-]. cbn [self input_interval_ count_ calls].
      rewrite <- !app_assoc. auto.
  - assert (Hext : ~ (offset J <= m /\ f <= end_ J)).
    { intros Hx. apply Hgt in Hx. discriminate. }
    split; [|split].
    + split; [intros [st' E]; discriminate | intros Hx; contradiction].
    + split; [intros _; exact Hext | reflexivity].
    + discriminate.
Qed.

End FurtherSplitStage.

(** Two full rounds and one further request on a node with two branches,
    through the theorem of X1. *)
Lemma barrier_rearms_every_round_witness :
  exists st',
    push_starts (SW := capped scenario_caps)
      [(10, DirX); (4, DirX); (7, DirY); (9, DirY); (3, DirX)] (fresh_node [1; 2]%nat)
    = Returned (tt, st') /\
    calls st' = [CallPushStartUp 0 4 DirX; CallPushStartUp 0 7 DirY] /\
    count_ (self st') = 1%nat /\
    Some (offset (input_interval_ (self st'))) = Some 3.
Proof.
  destruct (barrier_rearms_every_round (SW := capped scenario_caps)
              (fresh_node [1; 2]%nat)
              [[(10, DirX); (4, DirX)]; [(7, DirY); (9, DirY)]] [(3, DirX)])
    as [st' (E & Hc & _ & Hn & Ho)].
  - reflexivity.
  - cbn. lia.
  - repeat constructor.
  - cbn. lia.
  - exists st'. split; [exact E|]. split; [exact Hc|]. split; [exact Hn|].
    apply Ho. discriminate.
Defined.


(** A branch registered in the middle of a round, through the theorem of
    X5. *)
Lemma count_stays_below_branch_count_witness :
  exists st',
    exec_ops (SW := capped scenario_caps)
      [OpPushStartUp 5 DirX; OpSetDownstream 3; OpPushStartUp 6 DirX;
       OpPushEndDown 100 DirX]
      (fresh_node [1; 2]%nat)
    = Returned (tt, st') /\
    (count_ (self st') < length (downstream_ (self st')))%nat.
Proof.
  destruct (exec_ops (SW := capped scenario_caps)
              [OpPushStartUp 5 DirX; OpSetDownstream 3; OpPushStartUp 6 DirX;
               OpPushEndDown 100 DirX]
              (fresh_node [1; 2]%nat)) as [[[] st']|] eqn:E;
    [|vm_compute in E; discriminate].
  exists st'. split; [reflexivity|].
  apply (count_stays_below_branch_count (SW := capped scenario_caps)
           [OpPushStartUp 5 DirX; OpSetDownstream 3; OpPushStartUp 6 DirX;
            OpPushEndDown 100 DirX]
           (fresh_node [1; 2]%nat) st' (le_S _ _ (le_n 1)) E).
Defined.

(** Scenarios A and B and the crop to [[4,80)], through the theorem of
    X6. *)
Lemma negotiation_returns_iff_crop_covers_witness :
  exists st',
    negotiate (SW := capped scenario_caps) [(10, DirX); (4, DirX)] 100 (Interval2 4 80) DirX
      (fresh_node [1; 2]%nat) = Returned (tt, st') /\
    calls st' = [CallPushStartUp 0 4 DirX;
                 CallPushEndDown 1 100 DirX; CallPushEndDown 2 100 DirX;
                 CallPushEndDown 1 80 DirX; CallPushEndDown 2 80 DirX;
                 CallPushCropDown 1 (Interval2 4 80) DirX;
                 CallPushCropDown 2 (Interval2 4 80) DirX].
Proof.
  destruct (negotiation_returns_iff_crop_covers (SW := capped scenario_caps)
              (fresh_node [1; 2]%nat) [(10, DirX); (4, DirX)] 100 (Interval2 4 80) DirX 4)
    as ([_ Hret] & _ & Hcalls).
  - cbn. lia.
  - reflexivity.
  - reflexivity.
  - destruct Hret as [st' E].
    + vm_compute. split; discriminate.
    + exists st'. split; [exact E|]. apply (Hcalls st' E).
Defined.

(** * Properties of the VC4 pipeline handler *)

Module Vc4Facts.

Import Vc4.

(** ** Pairing image and embedded buffers *)

(** What is in [eb], as a list. *)
Lemma match_embedded_spec (ts : N) (q : list FrameBuffer) :
  forall ret q' eb ret',
    match_embedded ts q ret = (q', eb, ret') ->
    exists stale,
      ret' = ret ++ stale /\
      q = stale ++ match eb with Some b => [b] | None => [] end ++ q' /\
      Forall (fun b => (timestamp b < ts)%N) stale /\
      match eb with
      | Some b => timestamp b = ts
      | None => match q' with [] => True | b :: _ => (ts < timestamp b)%N end
      end.
Proof.
  induction q as [|b q IH]; intros ret q' eb ret'; cbn [match_embedded].
  - intros [= <- <- <-]. exists []. rewrite app_nil_r. auto.
  - destruct (N.ltb_spec (timestamp b) ts) as [Hlt|Hge].
    + intros E. destruct (IH _ _ _ _ E) as (stale & -> & -> & Hall & Heb).
      exists (b :: stale). rewrite <- app_assoc. cbn [app].
      repeat split; auto.
    + destruct (N.eqb_spec (timestamp b) ts) as [Heq|Hne].
      * intros [= <- <- <-]. exists []. rewrite app_nil_r. cbn. auto.
      * intros [= <- <- <-]. exists []. rewrite app_nil_r. cbn.
        repeat split; auto. lia.
Qed.

Lemma in_arrival_order_tail (b : FrameBuffer) (q : list FrameBuffer) :
  in_arrival_order (b :: q) = true -> in_arrival_order q = true.
Proof.
  cbn [in_arrival_order]. destruct q as [|b' q]; [reflexivity|].
  rewrite andb_true_iff. tauto.
Qed.

Lemma in_arrival_order_head (b : FrameBuffer) (q : list FrameBuffer) :
  in_arrival_order (b :: q) = true ->
  Forall (fun b' => (timestamp b <= timestamp b')%N) q.
Proof.
  revert b. induction q as [|b' q IH]; intros b H; [constructor|].
  cbn [in_arrival_order] in H. apply andb_true_iff in H as [Hle Hq].
  apply N.leb_le in Hle. constructor; [exact Hle|].
  specialize (IH b' Hq). eapply Forall_impl; [|exact IH].
  cbn. intros a Ha. lia.
Qed.

Section Pairing.

Variable ControlList : Type.

(** What the function leaves of the embedded queue is what the loop
    leaves. *)
Lemma findMatchingBuffers_embedded (st st' : Queues ControlList)
    (bayerFrame bayerFrame' front : BayerFrame ControlList)
    (rest : list (BayerFrame ControlList))
    (embeddedBuffer embeddedBuffer' : option FrameBuffer) (r : bool) :
  bayerQueue_ st = front :: rest ->
  findMatchingBuffers st bayerFrame embeddedBuffer
  = (r, bayerFrame', embeddedBuffer', st') ->
  match_embedded (timestamp (buffer front)) (embeddedQueue_ st) (returned st)
  = (embeddedQueue_ st', embeddedBuffer', returned st').
Proof.
  unfold findMatchingBuffers. intros ->.
  destruct (match_embedded (timestamp (buffer front)) (embeddedQueue_ st) (returned st))
    as [[q eb] ret].
  destruct (_ && _); intros [= <- <- <- <-]; reflexivity.
Qed.

(** X7.  No embedded buffer is lost.  When there is an image buffer with
    timestamp [ts] at the front of the Bayer queue, the embedded queue as
    it was is, in order: the buffers handed back to the driver, all older
    than [ts]; the buffer paired with the image, if any, whose timestamp
    is [ts]; and the queue as it is left, whose front is newer than [ts]
    when no buffer was paired. *)
Theorem embedded_queue_is_split_in_three (st st' : Queues ControlList)
    (bayerFrame bayerFrame' front : BayerFrame ControlList)
    (rest : list (BayerFrame ControlList))
    (embeddedBuffer embeddedBuffer' : option FrameBuffer) (r : bool) :
  bayerQueue_ st = front :: rest ->
  findMatchingBuffers st bayerFrame embeddedBuffer
  = (r, bayerFrame', embeddedBuffer', st') ->
  exists stale,
    returned st' = returned st ++ stale /\
    embeddedQueue_ st
    = stale ++ match embeddedBuffer' with Some b => [b] | None => [] end
            ++ embeddedQueue_ st' /\
    Forall (fun b => (timestamp b < timestamp (buffer front))%N) stale /\
    (forall b, embeddedBuffer' = Some b -> timestamp b = timestamp (buffer front)) /\
    (forall b q, embeddedBuffer' = None -> embeddedQueue_ st' = b :: q ->
                 (timestamp (buffer front) < timestamp b)%N).
Proof.
  intros Hq Hres.
  pose proof (findMatchingBuffers_embedded _ _ _ _ _ _ _ _ _ Hq Hres) as E.
  apply match_embedded_spec in E as (stale & Hret & Hsplit & Hall & Heb).
  exists stale. repeat split; auto.
  - intros b ->. exact Heb.
  - intros b q0 -> Eq. rewrite Eq in Heb. exact Heb.
Qed.

(** X8.  When the function says yes and when it says no.  It returns
    [false] in two cases only: the Bayer queue is empty, and then nothing
    at all is changed; or no embedded buffer was paired although the
    sensor provides embedded data and the embedded queue has run empty,
    and then the Bayer queue and [bayerFrame] are left alone and
    [embeddedBuffer] is null.  When it returns [true], [bayerFrame] is the
    front of the Bayer queue, which has been popped. *)
Theorem frame_is_released_or_everything_waits (st st' : Queues ControlList)
    (bayerFrame bayerFrame' : BayerFrame ControlList)
    (embeddedBuffer embeddedBuffer' : option FrameBuffer) (r : bool) :
  findMatchingBuffers st bayerFrame embeddedBuffer
  = (r, bayerFrame', embeddedBuffer', st') ->
  sensorMetadata_ st' = sensorMetadata_ st /\
  (r = true ->
     bayerQueue_ st = bayerFrame' :: bayerQueue_ st') /\
  (r = false ->
     bayerFrame' = bayerFrame /\
     bayerQueue_ st' = bayerQueue_ st /\
     (bayerQueue_ st = [] -> st' = st /\ embeddedBuffer' = embeddedBuffer) /\
     (bayerQueue_ st <> [] ->
        embeddedBuffer' = None /\ sensorMetadata_ st = true /\ embeddedQueue_ st' = [])) /\
  (bayerQueue_ st <> [] -> sensorMetadata_ st = false -> r = true).
Proof.
  unfold findMatchingBuffers.
  destruct (bayerQueue_ st) as [|front rest] eqn:Eq.
  - intros [= <- <- <- <-]. repeat split; try congruence.
  - destruct (match_embedded (timestamp (buffer front)) (embeddedQueue_ st) (returned st))
      as [[q eb] ret].
    destruct eb as [b|]; cbn [andb].
    + intros [= <- <- <- <-]. cbn. repeat split; try congruence.
    + destruct (sensorMetadata_ st) eqn:Em; cbn [andb].
      * destruct q as [|b q]; intros [= <- <- <- <-]; cbn;
          repeat split; try congruence.
      * intros [= <- <- <- <-]. cbn. repeat split; try congruence.
Qed.

(** X9.  With the embedded queue in arrival order (timestamps never
    decreasing from front to back), the pairing is complete: a buffer is
    paired exactly when the queue holds one with the timestamp of the
    image; and no stale buffer survives: every buffer left in the queue is
    at least as new as the image, and the queue is still in arrival
    order. *)
Theorem pairing_is_complete_in_arrival_order (st st' : Queues ControlList)
    (bayerFrame bayerFrame' front : BayerFrame ControlList)
    (rest : list (BayerFrame ControlList))
    (embeddedBuffer embeddedBuffer' : option FrameBuffer) (r : bool) :
  in_arrival_order (embeddedQueue_ st) = true ->
  bayerQueue_ st = front :: rest ->
  findMatchingBuffers st bayerFrame embeddedBuffer
  = (r, bayerFrame', embeddedBuffer', st') ->
  ((exists b, In b (embeddedQueue_ st) /\ timestamp b = timestamp (buffer front))
     <-> (exists b, embeddedBuffer' = Some b)) /\
  Forall (fun b => (timestamp (buffer front) <= timestamp b)%N) (embeddedQueue_ st') /\
  in_arrival_order (embeddedQueue_ st') = true.
Proof.
  intros Hord Hq Hres.
  pose proof (findMatchingBuffers_embedded _ _ _ _ _ _ _ _ _ Hq Hres) as E.
  apply match_embedded_spec in E as (stale & _ & Hsplit & Hstale & Heb).
  assert (Hsome : forall b, embeddedBuffer' = Some b ->
                            timestamp b = timestamp (buffer front)).
  { intros b ->. exact Heb. }
  assert (Hnone : forall b q, embeddedBuffer' = None -> embeddedQueue_ st' = b :: q ->
                              (timestamp (buffer front) < timestamp b)%N).
  { intros b q -> Eq. rewrite Eq in Heb. exact Heb. }
  clear Heb.
  set (ts := timestamp (buffer front)) in *.
  assert (Hsuffix : forall l1 l2, in_arrival_order (l1 ++ l2) = true ->
                                  in_arrival_order l2 = true).
  { induction l1 as [|a l1 IH]; intros l2 H; [exact H|].
    apply IH. eapply in_arrival_order_tail, H. }
  rewrite Hsplit in Hord.
  apply Hsuffix in Hord.
  destruct embeddedBuffer' as [b|].
  - specialize (Hsome b eq_refl). cbn [app] in Hord.
    split; [|split].
    + split; [intros _; eauto|]. intros _. exists b. split; [|exact Hsome].
      rewrite Hsplit. apply in_or_app. right. now left.
    + apply in_arrival_order_head in Hord. rewrite Hsome in Hord. exact Hord.
    + eapply in_arrival_order_tail, Hord.
  - cbn [app] in Hord.
    assert (Hleft : Forall (fun b => (ts < timestamp b)%N) (embeddedQueue_ st')).
    { destruct (embeddedQueue_ st') as [|b q] eqn:Eq'; [constructor|].
      specialize (Hnone b q eq_refl eq_refl).
      constructor; [exact Hnone|].
      apply in_arrival_order_head in Hord.
      eapply Forall_impl; [|exact Hord]. cbn. intros a Ha. lia. }
    split; [|split].
    + split; [|intros [b Hb]; discriminate].
      intros (b & Hin & Hts). exfalso. rewrite Hsplit in Hin.
      apply in_app_or in Hin as [Hin|Hin].
      * rewrite Forall_forall in Hstale. specialize (Hstale b Hin). lia.
      * cbn [app] in Hin. rewrite Forall_forall in Hleft.
        specialize (Hleft b Hin). lia.
    + eapply Forall_impl; [|exact Hleft]. cbn. intros a Ha. lia.
    + exact Hord.
Qed.

End Pairing.

(** ** Validating a stream configuration *)

Lemma Size_ne_min (a o : Size) :
  Size_ne a (mkSize (N.min (width a) (width o)) (N.min (height a) (height o))) = false
  <-> fits_in a o.
Proof.
  unfold Size_ne, fits_in. cbn [width height].
  rewrite negb_false_iff, andb_true_iff, !N.eqb_eq. lia.
Qed.

Lemma Size_ne_min_self (a : Size) :
  Size_ne a (mkSize (N.min (width a) (width a)) (N.min (height a) (height a))) = false.
Proof. apply Size_ne_min. unfold fits_in. lia. Qed.

Lemma min_size_fits (a o : Size) :
  fits_in (mkSize (N.min (width a) (width o)) (N.min (height a) (height o))) o.
Proof. unfold fits_in. cbn. lia. Qed.

Lemma clamped_fits (a o : Size) : fits_in a o -> clamped a o = a.
Proof. unfold fits_in, clamped. destruct a as [w h]. cbn. intros [Hw Hh]. f_equal; lia. Qed.

(** [platformValidate] on the vectors it accepts, case by case. *)
Lemma run_platformValidate (rawStreams outStreams : list StreamParams) :
  (length rawStreams <= 1)%nat ->
  (length outStreams <= 2)%nat ->
  platformValidate rawStreams outStreams
  = (match outStreams with
     | [_; b] => match outStreams with
                 | a :: _ => if Size_ne (cfg_size b) (clamped (cfg_size b) (cfg_size a))
                             then Adjusted else Valid
                 | [] => Valid
                 end
     | _ => Valid
     end,
     match rawStreams with
     | [] => []
     | r :: rs => mkStreamParams (cfg_size r) (Some (UnicamStream Image)) :: rs
     end,
     match outStreams with
     | [] => []
     | a :: more =>
         mkStreamParams (cfg_size a) (Some (IspStream Output0))
         :: map (fun b => mkStreamParams (clamped (cfg_size b) (cfg_size a))
                                         (Some (IspStream Output1))) more
     end).
Proof.
  intros Hraw Hout. unfold platformValidate.
  replace (1 <? length rawStreams)%nat with false by (symmetry; apply Nat.ltb_ge; lia).
  replace (2 <? length outStreams)%nat with false by (symmetry; apply Nat.ltb_ge; lia).
  cbn [orb].
  destruct outStreams as [|a [|b [|c more]]]; [| | |cbn in Hout; lia].
  - reflexivity.
  - cbn. rewrite Size_ne_min_self. reflexivity.
  - cbn. rewrite Size_ne_min_self. cbn. fold (clamped (cfg_size b) (cfg_size a)).
    destruct (Size_ne (cfg_size b) (clamped (cfg_size b) (cfg_size a))) eqn:E.
    + reflexivity.
    + apply Size_ne_min in E. rewrite (clamped_fits _ _ E). reflexivity.
Qed.

Lemma too_many_streams_are_invalid_aux (rawStreams outStreams : list StreamParams) :
  fst (fst (platformValidate rawStreams outStreams)) <> Invalid ->
  (length rawStreams <= 1)%nat /\ (length outStreams <= 2)%nat.
Proof.
  unfold platformValidate.
  destruct (Nat.ltb_spec 1 (length rawStreams)) as [Hr|Hr]; cbn [orb fst].
  { intros Hn. now contradiction Hn. }
  destruct (Nat.ltb_spec 2 (length outStreams)) as [Ho|Ho]; cbn [orb fst].
  { intros Hn. now contradiction Hn. }
  auto.
Qed.

(** X10.  The configuration is rejected exactly when it asks for more than
    one raw stream or more than two output streams, and a rejected
    configuration is left untouched. *)
Theorem too_many_streams_are_invalid (rawStreams outStreams : list StreamParams) :
  (fst (fst (platformValidate rawStreams outStreams)) = Invalid
     <-> (1 < length rawStreams \/ 2 < length outStreams)%nat) /\
  (fst (fst (platformValidate rawStreams outStreams)) = Invalid ->
     platformValidate rawStreams outStreams = (Invalid, rawStreams, outStreams)).
Proof.
  destruct (Nat.ltb_spec 1 (length rawStreams)) as [Hr|Hr].
  { unfold platformValidate. apply Nat.ltb_lt in Hr. rewrite Hr. cbn.
    apply Nat.ltb_lt in Hr. split; [split; auto | reflexivity]. }
  destruct (Nat.ltb_spec 2 (length outStreams)) as [Ho|Ho].
  { unfold platformValidate. apply Nat.ltb_lt in Ho. rewrite Ho, orb_true_r. cbn.
    apply Nat.ltb_lt in Ho. split; [split; auto | reflexivity]. }
  rewrite run_platformValidate by lia. cbn [fst].
  assert (Hne : match outStreams with
     | [_; b] => match outStreams with
                 | a :: _ => if Size_ne (cfg_size b) (clamped (cfg_size b) (cfg_size a))
                             then Adjusted else Valid
                 | [] => Valid
                 end
     | _ => Valid
     end <> Invalid).
  { destruct outStreams as [|a [|b [|c more]]]; try discriminate.
    destruct (Size_ne _ _); discriminate. }
  split; [split; [contradiction | lia] | contradiction].
Qed.

(** X11.  An accepted configuration is clamped to its first output.  The
    first output keeps its size; every other output gets, in each
    dimension, the smaller of its own and the first output's, so that
    afterwards every output fits in the first one; nothing else of the
    sizes changes, the vectors keep their lengths, and the status is
    [Adjusted] exactly when some output did not fit in the first one
    before. *)
Theorem outputs_are_clamped_to_the_first (rawStreams outStreams : list StreamParams) :
  (length rawStreams <= 1)%nat ->
  (length outStreams <= 2)%nat ->
  exists status rawStreams' outStreams',
    platformValidate rawStreams outStreams = (status, rawStreams', outStreams') /\
    map cfg_size rawStreams' = map cfg_size rawStreams /\
    (forall first, nth_error outStreams 0 = Some first ->
       map cfg_size outStreams'
       = map (fun b => clamped (cfg_size b) (cfg_size first)) outStreams /\
       Forall (fun b => fits_in (cfg_size b) (cfg_size first)) outStreams' /\
       option_map cfg_size (nth_error outStreams' 0) = Some (cfg_size first) /\
       (status = Adjusted
          <-> exists b, In b outStreams /\ ~ fits_in (cfg_size b) (cfg_size first))) /\
    length outStreams' = length outStreams /\
    (status = Valid <-> map cfg_size outStreams' = map cfg_size outStreams) /\
    (status = Valid \/ status = Adjusted).
Proof.
  intros Hraw Hout. rewrite run_platformValidate by assumption.
  do 3 eexists. split; [reflexivity|].
  split; [destruct rawStreams; reflexivity|].
  assert (Hself : forall s, clamped s s = s).
  { intros s. apply clamped_fits. unfold fits_in. lia. }
  destruct outStreams as [|a [|b [|c more]]]; [| | |cbn in Hout; lia].
  - split; [intros first; discriminate|]. cbn. intuition congruence.
  - split.
    + intros first [= <-]. cbn. rewrite Hself.
      repeat split; auto.
      * constructor; [|constructor]. unfold fits_in. cbn. lia.
      * discriminate.
      * intros (b & [<-|[]] & Hn). exfalso. apply Hn. unfold fits_in. lia.
    + cbn. intuition congruence.
  - split.
    + intros first [= <-]. cbn [map nth_error option_map cfg_size]. rewrite Hself.
      split; [reflexivity|]. split; [|split; [reflexivity|]].
      * constructor; [unfold fits_in; cbn; lia|].
        constructor; [apply min_size_fits | constructor].
      * destruct (Size_ne (cfg_size b) (clamped (cfg_size b) (cfg_size a))) eqn:E.
        -- split; [intros _|reflexivity]. exists b. split; [cbn; auto|].
           intros Hfit. apply Size_ne_min in Hfit. unfold clamped in E. congruence.
        -- apply Size_ne_min in E. split; [discriminate|].
           intros (x & [<-|[<-|[]]] & Hn); exfalso; apply Hn; [|exact E].
           unfold fits_in. lia.
    + cbn [map length cfg_size]. split; [reflexivity|].
      destruct (Size_ne (cfg_size b) (clamped (cfg_size b) (cfg_size a))) eqn:E.
      * split; [|auto]. split; [discriminate|]. intros [= Heq]. exfalso.
        assert (Hf : Size_ne (cfg_size b) (clamped (cfg_size b) (cfg_size a)) = false).
        { rewrite Heq. unfold Size_ne. now rewrite !N.eqb_refl. }
        congruence.
      * split; [|auto]. split; [intros _|reflexivity].
        apply Size_ne_min in E. now rewrite (clamped_fits _ _ E).
Qed.

(** X12.  Validation settles in one pass: a configuration that was
    accepted, adjusted or not, is [Valid] as it stands when validated
    again, and the second pass changes nothing. *)
Theorem validation_settles_in_one_pass (rawStreams outStreams : list StreamParams)
    (status : Status) (rawStreams' outStreams' : list StreamParams) :
  platformValidate rawStreams outStreams = (status, rawStreams', outStreams') ->
  status <> Invalid ->
  platformValidate rawStreams' outStreams' = (Valid, rawStreams', outStreams').
Proof.
  intros Hrun Hok.
  destruct (too_many_streams_are_invalid_aux rawStreams outStreams) as [Hraw Hout].
  { rewrite Hrun. exact Hok. }
  rewrite run_platformValidate in Hrun by assumption.
  injection Hrun as <- <- <-.
  assert (Hself : forall s, clamped s s = s).
  { intros s. apply clamped_fits. unfold fits_in. lia. }
  assert (Hidem : forall s o, clamped (clamped s o) o = clamped s o).
  { intros s o. apply clamped_fits, min_size_fits. }
  rewrite run_platformValidate.
  - destruct rawStreams as [|r rs]; destruct outStreams as [|a [|b [|c more]]];
      cbn [map cfg_size]; try (cbn in Hout; lia);
      rewrite ?Hidem, ?Hself; try reflexivity.
    + pose proof (Size_ne_min_self (clamped (cfg_size b) (cfg_size a))) as E.
      fold (clamped (clamped (cfg_size b) (cfg_size a)) (clamped (cfg_size b) (cfg_size a))) in E.
      rewrite Hself in E. now rewrite E.
    + pose proof (Size_ne_min_self (clamped (cfg_size b) (cfg_size a))) as E.
      fold (clamped (clamped (cfg_size b) (cfg_size a)) (clamped (cfg_size b) (cfg_size a))) in E.
      rewrite Hself in E. now rewrite E.
  - destruct rawStreams as [|r rs]; cbn in *; lia.
  - destruct outStreams as [|a more]; cbn in *; [lia|]. rewrite length_map. lia.
Qed.


(** ** Reading the pipeline configuration *)

Section Configuring.

Local Open Scope string_scope.

Variable double : Type.
Variable is_1_0 : double -> bool.



End Configuring.

(** ** Counting buffers *)

Lemma wrap32_small (z : Z) : 0 <= z < 2 ^ 32 -> wrap32 z = z.
Proof. intros Hz. unfold wrap32. now apply Z.mod_small. Qed.

Lemma as_int_small (z : Z) : 0 <= z < 2 ^ 31 -> as_int z = z.
Proof.
  intros Hz. unfold as_int. rewrite wrap32_small by lia.
  destruct (Z.ltb_spec z (2 ^ 31)); lia.
Qed.

Lemma as_int_of_difference (a b : Z) :
  0 <= a < 2 ^ 31 -> 0 <= b < 2 ^ 31 -> as_int (wrap32 (a - b)) = a - b.
Proof.
  intros Ha Hb. unfold as_int.
  assert (Hw : wrap32 (wrap32 (a - b)) = wrap32 (a - b)).
  { unfold wrap32. apply Z.mod_mod. lia. }
  rewrite Hw.
  destruct (Z_lt_le_dec (a - b) 0) as [Hneg|Hpos].
  - assert (E : wrap32 (a - b) = a - b + 2 ^ 32).
    { unfold wrap32. symmetry. apply (Z.mod_unique _ _ (-1)); lia. }
    rewrite E. destruct (Z.ltb_spec (a - b + 2 ^ 32) (2 ^ 31)); lia.
  - rewrite wrap32_small by lia.
    destruct (Z.ltb_spec (a - b) (2 ^ 31)); lia.
Qed.

(** X16.  The Unicam image stream gets enough internal buffers.  With the
    two configured minima and the number of raw buffers of the
    application below [2^31], the stream is given
    [max(minUnicamBuffers, minTotalUnicamBuffers - numRawBuffers)]
    buffers, the difference taken in the integers: at least
    [minUnicamBuffers], and with the raw buffers at least
    [minTotalUnicamBuffers]; more raw buffers than the total asked for
    do not wrap around; and the ISP input is given the raw buffers and
    the internal ones together. *)
Theorem unicam_buffers_make_up_the_minimum (config_ : Config) (numRawBuffers : Z) :
  0 <= minUnicamBuffers config_ < 2 ^ 31 ->
  0 <= minTotalUnicamBuffers config_ < 2 ^ 31 ->
  0 <= numRawBuffers < 2 ^ 31 ->
  numBuffers_of config_ numRawBuffers (UnicamStream Image)
  = Z.max (minUnicamBuffers config_) (minTotalUnicamBuffers config_ - numRawBuffers) /\
  minUnicamBuffers config_ <= numBuffers_of config_ numRawBuffers (UnicamStream Image) /\
  minTotalUnicamBuffers config_
  <= numRawBuffers + numBuffers_of config_ numRawBuffers (UnicamStream Image) /\
  numBuffers_of config_ numRawBuffers (IspStream Input)
  = numRawBuffers + numBuffers_of config_ numRawBuffers (UnicamStream Image) /\
  (minTotalUnicamBuffers config_ <= numRawBuffers ->
     numBuffers_of config_ numRawBuffers (UnicamStream Image) = minUnicamBuffers config_).
Proof.
  intros Hu Ht Hr. unfold numBuffers_of, max_int.
  rewrite as_int_small by assumption.
  rewrite as_int_of_difference by assumption.
  rewrite !wrap32_small by lia.
  repeat split; lia.
Qed.

Section Preparing.

Variable D : Type.
Variable ext_prepareBuffers : StreamRef -> Z -> D -> Z * D.
Variable ext_mapBuffers : StreamRef -> Mask -> D -> D.

Lemma prepare_streams_trace (config_ : Config) (numRawBuffers : Z)
    (streams_ : list StreamRef) :
  forall d log res d' log',
    prepare_streams ext_prepareBuffers config_ numRawBuffers streams_ d log
    = (res, d', log') ->
    exists k,
      (k <= length streams_)%nat /\
      log' = log ++ map (fun s => CallPrepareBuffers s (numBuffers_of config_ numRawBuffers s))
                        (firstn k streams_) /\
      match res with
      | Some ret => ret < 0 /\ (1 <= k)%nat
      | None => k = length streams_
      end.
Proof.
  induction streams_ as [|s streams IH]; intros d log res d' log'; cbn [prepare_streams].
  - intros [= <- <- <-]. exists 0%nat. cbn. rewrite app_nil_r. auto.
  - destruct (ext_prepareBuffers s (numBuffers_of config_ numRawBuffers s) d) as [ret d1].
    destruct (Z.ltb_spec ret 0) as [Hneg|Hok].
    + intros [= <- <- <-]. exists 1%nat. cbn. repeat split; lia.
    + intros E. destruct (IH _ _ _ _ _ E) as (k & Hk & -> & Hres).
      exists (S k). cbn [firstn map length]. rewrite <- app_assoc. cbn [app].
      repeat split; [lia|]. destruct res; [split; [tauto | lia] | lia].
Qed.


End Preparing.

(** ** Running the pipeline *)

Section Running.

Variable ControlList : Type.
Variable MaskBayerData MaskEmbeddedData : Z.
Variable getBufferId : Unicam -> FrameBuffer -> Z.

Lemma findMatchingBuffers_bayer (st st' : Queues ControlList)
    (bayerFrame bayerFrame' : BayerFrame ControlList)
    (embeddedBuffer embeddedBuffer' : option FrameBuffer) (r : bool) :
  findMatchingBuffers st bayerFrame embeddedBuffer
  = (r, bayerFrame', embeddedBuffer', st') ->
  if r then bayerQueue_ st = bayerFrame' :: bayerQueue_ st'
  else bayerQueue_ st' = bayerQueue_ st.
Proof.
  unfold findMatchingBuffers.
  destruct (bayerQueue_ st) as [|front rest] eqn:Eq.
  - intros [= <- <- <- <-]. exact Eq.
  - destruct (match_embedded (timestamp (buffer front)) (embeddedQueue_ st) (returned st))
      as [[q eb] ret].
    destruct (_ && _); intros [= <- <- <- <-]; reflexivity.
Qed.


End Running.

(** ** The properties on sample data *)

(** The sample camera runs: the image of timestamp 20 (buffer 7) goes to
    the IPA with the embedded buffer of the same timestamp (buffer 3), the
    request stays queued, and a second call does nothing. *)
Example sample_camera_runs_once :
  let c' := tryRunPipeline 65536 131072 sample_buffer_id sample_camera sample_frame None in
  state_ c' = Busy /\
  requestQueue_ c' = [42%nat] /\
  pipeline_calls c'
  = [CallCalculateScalerCrop 42; CallClearMetadata 42; CallFillRequestMetadata tt 42;
     CallSignalPrepareIsp (mkPrepareParams 65543 (Some 131075) tt 42 0)] /\
  tryRunPipeline 65536 131072 sample_buffer_id c' sample_frame None = c'.
Proof. cbv zeta. repeat split. Qed.

(** The sample queues through the theorem of X7: the buffers of
    timestamps 10 and 15 go back to the driver, the one of timestamp 20 is
    paired, the one of timestamp 30 stays. *)
Lemma embedded_queue_is_split_in_three_witness :
  exists stale,
    stale = [mkFrameBuffer 1 10; mkFrameBuffer 2 15] /\
    embeddedQueue_ sample_queues
    = stale ++ [mkFrameBuffer 3 20] ++ [mkFrameBuffer 4 30] /\
    Forall (fun b => (timestamp b < 20)%N) stale.
Proof.
  destruct (embedded_queue_is_split_in_three unit sample_queues
              (mkQueues [] [mkFrameBuffer 4 30] true
                        [mkFrameBuffer 1 10; mkFrameBuffer 2 15])
              sample_frame sample_frame sample_frame [] None
              (Some (mkFrameBuffer 3 20)) true eq_refl eq_refl)
    as (stale & Hret & Hsplit & Hall & _).
  cbn in Hret. subst stale. eexists. split; [reflexivity|].
  split; [exact Hsplit | exact Hall].
Defined.

(** The theorem of X8 on the sample queues, where the image is released,
    and on a queue that holds one stale embedded buffer only, where
    everything waits. *)
Lemma frame_is_released_or_everything_waits_witness :
  bayerQueue_ sample_queues = [sample_frame] /\
  exists st',
    findMatchingBuffers (mkQueues [sample_frame] [mkFrameBuffer 1 10] true [])
                        sample_frame (Some (mkFrameBuffer 9 5))
    = (false, sample_frame, None, st') /\
    bayerQueue_ st' = [sample_frame] /\
    embeddedQueue_ st' = [] /\
    returned st' = [mkFrameBuffer 1 10].
Proof.
  split.
  - destruct (frame_is_released_or_everything_waits unit sample_queues
                (mkQueues [] [mkFrameBuffer 4 30] true
                          [mkFrameBuffer 1 10; mkFrameBuffer 2 15])
                sample_frame sample_frame None (Some (mkFrameBuffer 3 20)) true eq_refl)
      as (_ & Htrue & _).
    exact (Htrue eq_refl).
  - eexists. split; [reflexivity|].
    destruct (frame_is_released_or_everything_waits unit
                (mkQueues [sample_frame] [mkFrameBuffer 1 10] true [])
                (mkQueues [sample_frame] [] true [mkFrameBuffer 1 10])
                sample_frame sample_frame (Some (mkFrameBuffer 9 5)) None false eq_refl)
      as (_ & _ & Hfalse & _).
    destruct (Hfalse eq_refl) as (_ & Hq & _ & Hwait).
    destruct Hwait as (_ & _ & He); [discriminate|].
    split; [exact Hq|]. split; [exact He | reflexivity].
Defined.

(** The sample queues through the theorem of X9. *)
Lemma pairing_is_complete_in_arrival_order_witness :
  (exists b, In b (embeddedQueue_ sample_queues) /\ timestamp b = 20%N) /\
  Forall (fun b => (20 <= timestamp b)%N) [mkFrameBuffer 4 30].
Proof.
  destruct (pairing_is_complete_in_arrival_order unit sample_queues
              (mkQueues [] [mkFrameBuffer 4 30] true
                        [mkFrameBuffer 1 10; mkFrameBuffer 2 15])
              sample_frame sample_frame sample_frame [] None
              (Some (mkFrameBuffer 3 20)) true eq_refl eq_refl eq_refl)
    as ([_ Hin] & Hleft & _).
  split; [apply Hin; eexists; reflexivity | exact Hleft].
Defined.

(** The sample outputs through the theorem of X11: the second output is
    narrowed to 1920x720. *)
Lemma outputs_are_clamped_to_the_first_witness :
  exists status rawStreams' outStreams',
    platformValidate [] sample_outputs = (status, rawStreams', outStreams') /\
    map cfg_size outStreams' = [mkSize 1920 1080; mkSize 1920 720] /\
    status = Adjusted.
Proof.
  destruct (outputs_are_clamped_to_the_first [] sample_outputs
              (le_S _ _ (le_n 0)) (le_n 2))
    as (status & raw' & out' & E & _ & Hfirst & _).
  destruct (Hfirst _ eq_refl) as (Hsizes & _ & _ & Hadj).
  exists status, raw', out'. split; [exact E|]. split; [exact Hsizes|].
  apply Hadj. exists (mkStreamParams (mkSize 2592 720) None).
  split; [right; left; reflexivity|].
  unfold fits_in. cbn. lia.
Defined.

(** The sample outputs validated twice, through the theorem of X12. *)
Lemma validation_settles_in_one_pass_witness :
  platformValidate []
    [mkStreamParams (mkSize 1920 1080) (Some (IspStream Output0));
     mkStreamParams (mkSize 1920 720) (Some (IspStream Output1))]
  = (Valid, [],
     [mkStreamParams (mkSize 1920 1080) (Some (IspStream Output0));
      mkStreamParams (mkSize 1920 720) (Some (IspStream Output1))]).
Proof.
  apply (validation_settles_in_one_pass [] sample_outputs Adjusted).
  - reflexivity.
  - discriminate.
Defined.



(** Six raw buffers against a total of four, through the theorem of X16:
    two internal buffers, eight for the ISP input. *)
Lemma unicam_buffers_make_up_the_minimum_witness :
  numBuffers_of (mkConfig 2 4) 6 (UnicamStream Image) = 2 /\
  numBuffers_of (mkConfig 2 4) 6 (IspStream Input) = 8.
Proof.
  assert (Hu : 0 <= minUnicamBuffers (mkConfig 2 4) < 2 ^ 31) by (cbn; lia).
  assert (Ht : 0 <= minTotalUnicamBuffers (mkConfig 2 4) < 2 ^ 31) by (cbn; lia).
  assert (Hr : 0 <= 6 < 2 ^ 31) by lia.
  destruct (unicam_buffers_make_up_the_minimum (mkConfig 2 4) 6 Hu Ht Hr)
    as (Himage & _ & _ & Hinput & _).
  split; [exact Himage|]. rewrite Hinput, Himage. reflexivity.
Defined.


End Vc4Facts.
